(** * oscarlm: the sharded word-count pipeline of [genlm.py]

    A shallow embedding of [count_words], [aggregate_counters] and the
    preparation step of [main] from [src/oscarlm/genlm.py], together with the
    Python library operations they call ([collections.Counter],
    [io.BufferedReader.readlines], [str.split]).

    Conventions.
    - Python integers are [Z].
    - The input file, opened in binary mode, is a [list byte]; text written to
      an output file is a [string].
    - A [Counter] is a Python dict: an association list with unique keys kept
      in insertion order (the order decides ties in [most_common]).
    - [None] as the result of a loop means that the loop is still running
      after the given number of iterations. *)

From Stdlib Require Import ZArith List Bool String Ascii Lia Permutation.
From Stdlib Require Import Strings.Byte.
From Stdlib Require Import Sorting.Sorted.
From Stdlib Require Decimal DecimalString DecimalZ.
Import ListNotations.

Local Open Scope Z_scope.

(* ================================================================== *)
(** ** Keys and counters *)

(** A dict key.  Workers only ever count words ([str] objects); the prune
    step of the aggregator builds a [Counter] from a list of
    [(key, count)] tuples, whose elements are tuples. *)
Inductive key : Type :=
| Word (w : string)
| Tup (k : key) (count : Z).

Fixpoint key_eqb (a b : key) : bool :=
  match a, b with
  | Word x, Word y => String.eqb x y
  | Tup k c, Tup k' c' => key_eqb k k' && (c =? c')
  | _, _ => false
  end.

Definition Counter : Type := list (key * Z).

(** [counter[k]], with [Counter.__missing__] giving [0]. *)
Fixpoint getitem (c : Counter) (k : key) : Z :=
  match c with
  | [] => 0
  | (k', n) :: c' => if key_eqb k k' then n else getitem c' k
  end.

(** [counter[k] += n]: an existing entry is updated in place, a new key is
    appended. *)
Fixpoint add_count (c : Counter) (k : key) (n : Z) : Counter :=
  match c with
  | [] => [(k, 0 + n)]
  | (k', m) :: c' =>
      if key_eqb k k' then (k', m + n) :: c' else (k', m) :: add_count c' k n
  end.

(** [Counter._keep_positive]. *)
Definition keep_positive (c : Counter) : Counter :=
  filter (fun kc => 0 <? snd kc) c.

(** [for elem, count in other.items(): self[elem] += count] *)
Definition update (self other : Counter) : Counter :=
  fold_left (fun s kc => add_count s (fst kc) (snd kc)) other self.

(** [self += other] ([Counter.__iadd__]). *)
Definition iadd (self other : Counter) : Counter :=
  keep_positive (update self other).

(** [len(counter.keys())]. *)
Definition len_keys (c : Counter) : Z := Z.of_nat (List.length c).

(** Stable sort by decreasing count: [sorted(items, key=itemgetter(1),
    reverse=True)]. *)
Fixpoint insert_desc (x : key * Z) (l : list (key * Z)) : list (key * Z) :=
  match l with
  | [] => [x]
  | y :: l' => if snd y <=? snd x then x :: y :: l' else y :: insert_desc x l'
  end.

Definition sort_desc (l : list (key * Z)) : list (key * Z) :=
  fold_right insert_desc [] l.

(** [counter.most_common(n)], that is [heapq.nlargest(n, items, key=count)]:
    the first [n] items of the stable decreasing sort, none when [n <= 0]. *)
Definition most_common (n : Z) (c : Counter) : list (key * Z) :=
  firstn (Z.to_nat n) (sort_desc c).

(** [Counter(iterable)]: counts the elements of the iterable. *)
Definition Counter_of (elems : list key) : Counter :=
  fold_left (fun c k => add_count c k 1) elems [].

(** A well-formed dict has no repeated key. *)
Definition keys (c : Counter) : list key := map fst c.
Definition wf (c : Counter) : Prop := NoDup (keys c).
Definition positive (c : Counter) : Prop := Forall (fun kc => 0 < snd kc) c.
(** Counts are unsigned. *)
Definition nonneg (c : Counter) : Prop := Forall (fun kc => 0 <= snd kc) c.

(* ================================================================== *)
(** ** Library operations on files and strings *)

(** [str.isspace] on a character with code point below 256. *)
Definition isspace (a : ascii) : bool :=
  let n := Z.of_nat (nat_of_ascii a) in
  ((9 <=? n) && (n <=? 13)) || ((28 <=? n) && (n <=? 32))
  || (n =? 133) || (n =? 160).

(** [line.split()]: the maximal runs of non-whitespace characters.
    [word] is the run read so far. *)
Fixpoint split_from (word s : string) : list string :=
  match s with
  | EmptyString => match word with EmptyString => [] | _ => [word] end
  | String a rest =>
      if isspace a then
        match word with
        | EmptyString => split_from EmptyString rest
        | _ => word :: split_from EmptyString rest
        end
      else split_from (word ++ String a EmptyString) rest
  end.

Definition split (line : string) : list string := split_from EmptyString line.

Definition newline : byte := x0a.
Definition nl : string := String (ascii_of_nat 10) EmptyString.

(** Iterating a binary file: the lines from the current position to the end
    of the file, each with its terminating newline (the last one may lack
    it). *)
Fixpoint splitlines (data : list byte) : list (list byte) :=
  match data with
  | [] => []
  | b :: rest =>
      if Byte.eqb b newline then [b] :: splitlines rest
      else match splitlines rest with
           | [] => [[b]]
           | line :: lines => (b :: line) :: lines
           end
  end.

(** The loop of [readlines(hint)] for a positive hint: a line is appended,
    and reading stops once the size of the lines read exceeds the hint
    ([if (line_length > hint - length) break;] in CPython). *)
Fixpoint take_hint (hint length : Z) (lines : list (list byte)) : list (list byte) :=
  match lines with
  | [] => []
  | line :: rest =>
      let line_length := Z.of_nat (List.length line) in
      line :: (if line_length >? hint - length then []
               else take_hint hint (length + line_length) rest)
  end.

(** [f.readlines(hint)] on the bytes that follow the file position. *)
Definition readlines (hint : Z) (data : list byte) : list (list byte) :=
  if hint <=? 0 then splitlines data else take_hint hint 0 (splitlines data).

Definition total_length (lines : list (list byte)) : Z :=
  Z.of_nat (List.length (List.concat lines)).

(** [math.ceil(a / b)] for a non-zero [b]. *)
Definition ceil_div (a b : Z) : Z := - ((- a) / b).

(** [range(n)]. *)
Definition range (n : Z) : list Z := map Z.of_nat (seq 0 (Z.to_nat n)).

(* ================================================================== *)
(** ** Module constants and command-line arguments *)

Definition MAX_KEYS : Z := 100000.

Record args : Type := {
  ARGS_workers : Z;
  ARGS_block_size : Z;
  ARGS_vocabulary_size : Z;
  ARGS_prune_factor : Z
}.

(** An item of the [counters] queue: [STOP_TOKEN], or the tuple
    [(counter, read_bytes)] put by a worker. *)
Inductive item : Type :=
| STOP_TOKEN
| Batch (counter : Counter) (read_bytes : Z).

(** What the environment does to one iteration of a worker's loop:
    nothing, [readlines] raises, or [writelines] raises after having written
    the given number of lines. *)
Inductive fault : Type :=
| NoFault
| ReadFault
| WriteFault (written : nat).

(** The local variables of [count_words] inside the [with] block, the
    position of [unprepared_file], the text written to [partial_file] and
    the items put on the queue, oldest first. *)
Record worker : Type := {
  pos : Z;
  old_pos : Z;
  counter : Counter;
  offset : Z;
  partial_file : string;
  counters : list item
}.

(** How a call of [count_words] ends: it returns, or an exception leaves
    it (no partial file has been created then). *)
Inductive outcome : Type :=
| Returned (w : worker)
| Raised.

(* ================================================================== *)
(** ** The worker: [count_words] *)

Section Worker.

(** [LANG.clean(l.decode())]: the language module is chosen at start-up;
    [None] stands for an exception raised by the decoding or the cleaning. *)
Variable clean : list byte -> option (list string).
Variable ARGS : args.
(** The bytes of [unprepared.txt]. *)
Variable unprepared : list byte.

Definition getsize : Z := Z.of_nat (List.length unprepared).

(** [list(itertools.chain.from_iterable(map(lambda l: LANG.clean(l.decode()), lines)))] *)
Fixpoint clean_lines (lines : list (list byte)) : option (list string) :=
  match lines with
  | [] => Some []
  | l :: rest =>
      match clean l with
      | None => None
      | Some out =>
          match clean_lines rest with
          | None => None
          | Some outs => Some (out ++ outs)%list
          end
      end
  end.

(** [for line in lines: for word in line.split(): counter[word] += 1] *)
Definition count_line (c : Counter) (line : string) : Counter :=
  fold_left (fun c word => add_count c (Word word) 1) (split line) c.

Definition count_lines (c : Counter) (lines : list string) : Counter :=
  fold_left count_line lines c.

(** [partial_file.writelines(map(lambda l: l + '\n', lines))] *)
Definition writelines (file : string) (lines : list string) : string :=
  fold_left (fun f l => (f ++ (l ++ nl))%string) lines file.

(** The hint passed to [readlines] (line 40). *)
Definition read_hint (end_ p : Z) : Z := Z.max (ARGS_block_size ARGS) (end_ - p).

(** The lines returned by the [readlines] call of an iteration. *)
Definition read_block (end_ : Z) (w : worker) : list (list byte) :=
  readlines (read_hint end_ (pos w)) (skipn (Z.to_nat (offset w)) unprepared).

(** Lines 41-42: [lines[1:]] in the first iteration of a worker other than
    the first. *)
Definition kept_lines (index start end_ : Z) (w : worker) : list (list byte) :=
  let lines := read_block end_ w in
  if (index >? 0) && (pos w =? start) then tl lines else lines.

(** The flush test of line 52. *)
Definition flush_due (end_ : Z) (c : Counter) (p : Z) : bool :=
  (len_keys c >? MAX_KEYS) || (p >=? end_).

(** One iteration of the [while] loop (lines 38-58).  An exception leaves
    the [try] block at the statement that raised it and is caught by
    [except Exception]; the assignments made before it stay. *)
Definition block (index start end_ : Z) (flt : fault) (w : worker) : worker :=
  match flt with
  | ReadFault => w
  | _ =>
      let offset' := offset w + total_length (read_block end_ w) in
      let lines := kept_lines index start end_ w in
      let pos' := offset' in
      match clean_lines lines with
      | None =>
          {| pos := pos'; old_pos := old_pos w; counter := counter w;
             offset := offset'; partial_file := partial_file w;
             counters := counters w |}
      | Some lines =>
          let counter' := count_lines (counter w) lines in
          match flt with
          | WriteFault n =>
              {| pos := pos'; old_pos := old_pos w; counter := counter';
                 offset := offset';
                 partial_file := writelines (partial_file w) (firstn n lines);
                 counters := counters w |}
          | _ =>
              let partial' := writelines (partial_file w) lines in
              if flush_due end_ counter' pos' then
                {| pos := pos'; old_pos := pos'; counter := [];
                   offset := offset'; partial_file := partial';
                   counters := (counters w ++ [Batch counter' (pos' - old_pos w)])%list |}
              else
                {| pos := pos'; old_pos := old_pos w; counter := counter';
                   offset := offset'; partial_file := partial';
                   counters := counters w |}
          end
      end
  end.

(** [while pos < end: ...], run for at most [fuel] iterations; the fault of
    an iteration is the head of [faults] ([NoFault] once the list is
    used up). *)
Fixpoint loop (fuel : nat) (index start end_ : Z) (faults : list fault)
  (w : worker) : option worker :=
  if pos w <? end_ then
    match fuel with
    | O => None
    | S fuel' =>
        loop fuel' index start end_ (tl faults)
          (block index start end_ (hd NoFault faults) w)
    end
  else Some w.

Definition block_size : Z := ceil_div getsize (ARGS_workers ARGS).
Definition shard_start (index : Z) : Z := index * block_size.
Definition shard_end (index : Z) : Z := shard_start index + block_size.

(** The state at the first test of the loop: both files open, the input
    positioned at [start]. *)
Definition opened (index : Z) : worker :=
  {| pos := shard_start index; old_pos := shard_start index; counter := [];
     offset := shard_start index; partial_file := EmptyString; counters := [] |}.

(** [count_words(index, counters)].  [opens] tells whether the two [open]
    calls of the [with] statement succeed. *)
Definition count_words (fuel : nat) (opens : bool) (faults : list fault)
  (index : Z) : option outcome :=
  if ARGS_workers ARGS =? 0 then Some Raised
  else if negb opens then Some Raised
  else
    match loop fuel index (shard_start index) (shard_end index) faults (opened index) with
    | None => None
    | Some w => Some (Returned w)
    end.

(** The states the loop of worker [index] goes through when no write
    raises. *)
Inductive reachable (index : Z) : worker -> Prop :=
| reach_opened : reachable index (opened index)
| reach_block (w : worker) (flt : fault) :
    reachable index w ->
    pos w < shard_end index ->
    (forall n, flt <> WriteFault n) ->
    reachable index (block index (shard_start index) (shard_end index) flt w).

End Worker.

(* ================================================================== *)
(** ** The aggregator: [aggregate_counters] *)

Section Aggregator.

Variable ARGS : args.
(** [str] of a tuple key (a Python builtin; [str] of a word is the word). *)
Variable str_tuple : key -> Z -> string.

Definition str_key (k : key) : string :=
  match k with
  | Word w => w
  | Tup k' c => str_tuple k' c
  end.

(** The test of line 74. *)
Definition prune_due (overall : Counter) : bool :=
  len_keys overall >? ARGS_prune_factor ARGS * ARGS_vocabulary_size ARGS.

(** Line 75: [Counter(overall_counter.most_common(ARGS.vocabulary_size))].
    [most_common] returns a list of [(key, count)] tuples and [Counter]
    counts the elements of the list it is given. *)
Definition prune (overall : Counter) : Counter :=
  Counter_of (map (fun kc => Tup (fst kc) (snd kc))
                  (most_common (ARGS_vocabulary_size ARGS) overall)).

(** Lines 71-75 for one [(counter, read_bytes)] item. *)
Definition merge (overall counter : Counter) : Counter :=
  let overall := iadd overall counter in
  if prune_due overall then prune overall else overall.

(** The [while True] loop on the items in arrival order; the value is
    [overall_counter] when [STOP_TOKEN] is received, [None] when the queue
    runs dry before ([counters.get()] blocks). *)
Fixpoint aggregate_loop (items : list item) (overall : Counter) : option Counter :=
  match items with
  | [] => None
  | STOP_TOKEN :: _ => Some overall
  | Batch counter _ :: rest => aggregate_loop rest (merge overall counter)
  end.

(** The cumulative byte count fed to the progress indicator. *)
Fixpoint progress (items : list item) : Z :=
  match items with
  | Batch _ read_bytes :: rest => read_bytes + progress rest
  | _ => 0
  end.

(** The words written at line 68, in order. *)
Definition vocabulary (overall : Counter) : list key :=
  map fst (most_common (ARGS_vocabulary_size ARGS) overall).

(** The text written to [vocabulary_txt]. *)
Definition vocabulary_text (overall : Counter) : string :=
  String.concat nl (map str_key (vocabulary overall)).

Definition aggregate_counters (items : list item) : option string :=
  option_map vocabulary_text (aggregate_loop items []).

End Aggregator.

(* ================================================================== *)
(** ** The preparation step of [main] (lines 113-129) *)

(** Modelled from the spec: [utils.maybe_join] is not part of the sources;
    the spec has the per-shard files concatenated in shard-index order. *)
Definition maybe_join (partials : list string) : string :=
  String.concat EmptyString partials.

Record prepared : Type := {
  vocabulary_txt : string;
  prepared_txt : option string
}.

Section Main.

Variable clean : list byte -> option (list string).
Variable str_tuple : key -> Z -> string.
Variable ARGS : args.
Variable unprepared : list byte.
(** Per worker: whether its files open, and the faults of its iterations. *)
Variable opens : Z -> bool.
Variable faults : Z -> list fault.

(** [for p in counter_processes: p.join()]: [join] waits for the process to
    end and returns nothing; it never returns for a worker that loops
    forever. *)
Fixpoint join_all (processes : list (option outcome)) : option (list outcome) :=
  match processes with
  | [] => Some []
  | None :: _ => None
  | Some o :: rest =>
      match join_all rest with
      | None => None
      | Some os => Some (o :: os)
      end
  end.

Definition put_items (o : outcome) : list item :=
  match o with
  | Returned w => counters w
  | Raised => []
  end.

(** The partial files, when every one of them has been created. *)
Fixpoint partials (os : list outcome) : option (list string) :=
  match os with
  | [] => Some []
  | Raised :: _ => None
  | Returned w :: rest =>
      match partials rest with
      | None => None
      | Some ps => Some (partial_file w :: ps)
      end
  end.

(** The items reach the aggregator worker by worker, in index order: one of
    the arrival orders the queue allows. *)
Definition main_prepare (fuel : nat) : option prepared :=
  match join_all (map (fun index =>
                         count_words clean ARGS unprepared fuel (opens index)
                           (faults index) index)
                      (range (ARGS_workers ARGS))) with
  | None => None
  | Some os =>
      match aggregate_counters ARGS str_tuple (flat_map put_items os ++ [STOP_TOKEN])%list with
      | None => None
      | Some v =>
          Some {| vocabulary_txt := v;
                  prepared_txt := option_map maybe_join (partials os) |}
      end
  end.

End Main.

(* ================================================================== *)
(** ** The scorer stage of [main]: reading the vocabulary (lines 187-206) *)

Definition cr : ascii := ascii_of_nat 13.
Definition lf : ascii := ascii_of_nat 10.

(** Reading a file opened in text mode with the default [newline=None]:
    ["\r\n"] and a lone ["\r"] become ["\n"]. *)
Fixpoint universal_newlines (s : string) : string :=
  match s with
  | EmptyString => EmptyString
  | String a rest =>
      if Ascii.eqb a cr then
        match rest with
        | EmptyString => String lf EmptyString
        | String b rest' =>
            if Ascii.eqb b lf then String lf (universal_newlines rest')
            else String lf (universal_newlines rest)
        end
      else String a (universal_newlines rest)
  end.

(** [for line in vocabulary_file]: the lines of a text, each with its
    newline. *)
Fixpoint text_lines (s : string) : list string :=
  match s with
  | EmptyString => []
  | String a rest =>
      if Ascii.eqb a lf then String a EmptyString :: text_lines rest
      else match text_lines rest with
           | [] => [String a EmptyString]
           | line :: lines => String a line :: lines
           end
  end.

(** The words met by the two loops of lines 190-191, in reading order. *)
Definition read_vocabulary (text : string) : list string :=
  flat_map split (text_lines (universal_newlines text)).

(** [vocab_looks_char_based] after the loops. *)
Definition vocab_looks_char_based (text : string) : bool :=
  forallb (fun word => (String.length word <=? 1)%nat) (read_vocabulary text).

(** [--alphabet-mode]. *)
Inductive alphabet_mode : Type := auto | utf8 | specific.

(** Lines 201-206. *)
Definition use_utf8 (mode : alphabet_mode) (text : string) : bool :=
  match mode with
  | auto => vocab_looks_char_based text
  | utf8 => true
  | specific => false
  end.

(* ================================================================== *)
(** ** The stages of [main] (lines 99-226) *)

(** The five blocks of [main] that follow the download and the unzipping. *)
Inductive stage : Type :=
| Prepare
| Lmplz
| Filter
| Build_binary
| Build_scorer.

(** [os.path.isfile] of the output files, as [main] would find them. *)
Record outputs : Type := {
  isfile_prepared : bool;
  isfile_vocabulary : bool;
  isfile_unfiltered : bool;
  isfile_filtered : bool;
  isfile_lm_binary : bool;
  isfile_scorer : bool
}.

Section Stages.

(** Whether a stage, once started, ends normally (no exception leaves it). *)
Variable succeeds : stage -> bool.

(** One [if redo or not os.path.isfile(...)] block: the stage runs and sets
    [redo], or is skipped; [rest] is what follows in [main].  The value is
    the list of the stages started and whether [main] returned. *)
Definition stage_block (st : stage) (present : bool)
  (rest : bool -> list stage * bool) (redo : bool) : list stage * bool :=
  if redo || negb present then
    if succeeds st then
      let (started, returned) := rest true in (st :: started, returned)
    else ([st], false)
  else rest redo.

(** [main].  [maybe_download] and [maybe_ungzip] (of [utils], not in the
    sources) are given by the flag they return for the [force] flag they
    receive. *)
Definition main_stages (force_download force_generate : bool)
  (maybe_download maybe_ungzip : bool -> bool) (dir : outputs) : list stage * bool :=
  let redo := force_download in
  let redo := maybe_download redo in
  let redo := maybe_ungzip redo in
  let redo := redo || force_generate in
  stage_block Prepare (isfile_prepared dir && isfile_vocabulary dir)
    (stage_block Lmplz (isfile_unfiltered dir)
       (stage_block Filter (isfile_filtered dir)
          (stage_block Build_binary (isfile_lm_binary dir)
             (stage_block Build_scorer (isfile_scorer dir)
                (fun _ => ([], true))))))
    redo.

End Stages.

(* ================================================================== *)
(** ** [get_partial_path] (lines 24-25) *)

(** [str(n)] for an integer. *)
Definition str_int (n : Z) : string :=
  DecimalString.NilZero.string_of_int (Z.to_int n).

Definition sep : ascii := "/"%char.

Fixpoint endswith_sep (s : string) : bool :=
  match s with
  | EmptyString => false
  | String a EmptyString => Ascii.eqb a sep
  | String _ rest => endswith_sep rest
  end.

Definition startswith_sep (s : string) : bool :=
  match s with
  | String a _ => Ascii.eqb a sep
  | EmptyString => false
  end.

(** [os.path.join(a, b)] of [posixpath]. *)
Definition path_join (a b : string) : string :=
  if startswith_sep b then b
  else if match a with EmptyString => true | _ => endswith_sep a end
       then (a ++ b)%string
       else (a ++ String sep b)%string.

Definition get_partial_path (model_dir : string) (index : Z) : string :=
  path_join model_dir ("prepared.txt.partial" ++ str_int index)%string.

(* ================================================================== *)
(** ** [get_serialized_utf8_alphabet] (lines 78-85) *)

(** The byte of value [v], for [0 <= v < 256]. *)
Definition byte_of_Z (v : Z) : byte :=
  match Byte.of_N (Z.to_N v) with
  | Some b => b
  | None => x00
  end.

(** [struct.pack('<h', v)]: two bytes, least significant first;
    [struct.error] outside the range of a 16-bit signed integer. *)
Definition pack_h (v : Z) : option (list byte) :=
  if (-32768 <=? v) && (v <=? 32767)
  then Some [byte_of_Z (v mod 256); byte_of_Z ((v / 256) mod 256)]
  else None.

(** [bytes([v])]: [ValueError] unless [0 <= v < 256]. *)
Definition bytes_of_int (v : Z) : option (list byte) :=
  if (0 <=? v) && (v <? 256) then Some [byte_of_Z v] else None.

(** [struct.pack('<hh1s', a, b, s)] for a one-byte [s]. *)
Definition pack_hh1s (a b : Z) (s : option (list byte)) : option (list byte) :=
  match pack_h a, pack_h b, s with
  | Some x, Some y, Some z => Some (x ++ y ++ firstn 1 z)%list
  | _, _, _ => None
  end.

(** The [for] loop of lines 81-84 on the values of [i] that remain. *)
Fixpoint alphabet_records (res : list byte) (indices : list Z) : option (list byte) :=
  match indices with
  | [] => Some res
  | i :: rest =>
      match pack_hh1s i 1 (bytes_of_int (i + 1)) with
      | Some record => alphabet_records (res ++ record)%list rest
      | None => None
      end
  end.

Definition get_serialized_utf8_alphabet : option (list byte) :=
  match pack_h 255 with
  | Some res => alphabet_records res (range 255)
  | None => None
  end.

(* ================================================================== *)
(** ** Concrete inputs *)

(** A normalizer for examples: the line without its newline, as one
    cleaned line. *)
Definition clean_plain (l : list byte) : option (list string) :=
  Some [string_of_list_byte (filter (fun b => negb (Byte.eqb b newline)) l)].

(** A file made of the given lines, each ended by a newline. *)
Definition file_of (lines : list string) : list byte :=
  flat_map (fun l => (list_byte_of_string l ++ [newline])%list) lines.

Definition str_tuple_plain (k : key) (c : Z) : string := "(tuple)"%string.

Definition no_faults (index : Z) : list fault := [].
Definition all_open (index : Z) : bool := true.

Definition ARGS_prune : args :=
  {| ARGS_workers := 1; ARGS_block_size := 1;
     ARGS_vocabulary_size := 1; ARGS_prune_factor := 1 |}.

(** [--workers] and [--block-size] as given, a vocabulary of 3 words and
    the default prune factor. *)
Definition ARGS_with (workers block_size : Z) : args :=
  {| ARGS_workers := workers; ARGS_block_size := block_size;
     ARGS_vocabulary_size := 3; ARGS_prune_factor := 10 |}.

(** Four lines of two bytes: 8 bytes. *)
Definition file_abcd : list byte := file_of ["a"; "b"; "c"; "d"]%string.

(** 12 bytes; the line [efg] takes the bytes 6 to 9. *)
Definition file_efg : list byte := file_of ["ab"; "cd"; "efg"; "h"]%string.

(** 3 bytes, the last line without a newline. *)
Definition file_ab : list byte :=
  (list_byte_of_string "a" ++ [newline] ++ list_byte_of_string "b")%list.

(** Two lines, three words: 6 bytes. *)
Definition file_ab_c : list byte := file_of ["a b"; "c"]%string.

(** The text of a file holding the given lines. *)
Definition text_of (lines : list string) : string :=
  String.concat EmptyString (map (fun l => (l ++ nl)%string) lines).

(** Three small batches. *)
Definition batch_x : Counter := [(Word "x", 1)].
Definition batch_y : Counter := [(Word "y", 2)].
Definition batch_xz : Counter := [(Word "x", 3); (Word "z", 1)].

(* ================================================================== *)
(** ** Vocabulary of the statements *)

Definition batch_item (b : Counter * Z) : item := Batch (fst b) (snd b).

(** The total frequency of a key over a list of batches. *)
Fixpoint total (bs : list Counter) (k : key) : Z :=
  match bs with
  | [] => 0
  | b :: rest => getitem b k + total rest k
  end.

(** The test of line 74 fails after each of the batches, received in this
    order, has been added to [overall]. *)
Fixpoint never_pruned (ARGS : args) (bs : list Counter) (overall : Counter) : bool :=
  match bs with
  | [] => true
  | b :: rest =>
      negb (prune_due ARGS (iadd overall b)) && never_pruned ARGS rest (iadd overall b)
  end.

(** A batch as the spec has it: a dict from words to unsigned counts. *)
Definition is_word (k : key) : Prop := exists w, k = Word w.
Definition word_counts (c : Counter) : Prop :=
  wf c /\ nonneg c /\ Forall is_word (keys c).

(** [voc] is the list of the [n] most frequent keys for the frequencies
    [freq], most frequent first (all the keys of positive frequency when
    there are fewer than [n]). *)
Definition top_words (freq : key -> Z) (n : Z) (voc : list key) : Prop :=
  NoDup voc
  /\ (forall k, In k voc -> 0 < freq k)
  /\ StronglySorted (fun k k' => freq k' <= freq k) voc
  /\ (forall k k', In k voc -> ~ In k' voc -> freq k' <= freq k)
  /\ (Z.of_nat (List.length voc) = Z.max 0 n
      \/ (Z.of_nat (List.length voc) < n /\ forall k, 0 < freq k -> In k voc)).

(** Decreasing counts. *)
Definition desc (x y : key * Z) : Prop := snd y <= snd x.

(** The counting loop on the words of a block, taken together. *)
Definition count_list (c : Counter) (words : list string) : Counter :=
  fold_left (fun c word => add_count c (Word word) 1) words c.

(** What a worker puts on the queue. *)
Definition sent_ok (it : item) : Prop :=
  match it with
  | Batch c _ => word_counts c
  | STOP_TOKEN => False
  end.

(** [pos] is the position of the input file and lies at or before the
    larger of [start] and the size of the file. *)
Definition within (unprepared : list byte) (start : Z) (w : worker) : Prop :=
  pos w = offset w /\ offset w <= Z.max start (getsize unprepared).

(** No [writelines] raises. *)
Definition writes_succeed (faults : list fault) : Prop :=
  Forall (fun flt => forall n, flt <> WriteFault n) faults.

(** The read_bytes of the items of a queue, added up. *)
Fixpoint sent_bytes (items : list item) : Z :=
  match items with
  | [] => 0
  | Batch _ read_bytes :: rest => read_bytes + sent_bytes rest
  | STOP_TOKEN :: rest => sent_bytes rest
  end.

(** An item a worker puts carries a byte count that is not negative. *)
Definition counted_bytes (it : item) : Prop :=
  match it with
  | Batch _ read_bytes => 0 <= read_bytes
  | STOP_TOKEN => False
  end.

(** The byte counts sent add up to the bytes read up to the last item. *)
Definition accounted (start : Z) (w : worker) : Prop :=
  sent_bytes (counters w) = old_pos w - start
  /\ start <= old_pos w <= pos w
  /\ pos w = offset w
  /\ Forall counted_bytes (counters w).

(** Either the loop goes on, or everything counted has been sent. *)
Definition flushed (end_ : Z) (w : worker) : Prop :=
  pos w < end_ \/ (old_pos w = pos w /\ counter w = []).

(** A word as [split] returns it: not empty, no whitespace in it. *)
Fixpoint nospace (s : string) : bool :=
  match s with
  | EmptyString => true
  | String a rest => negb (isspace a) && nospace rest
  end.

Definition is_token (w : string) : Prop := w <> EmptyString /\ nospace w = true.

(** What [split] returns for the word read so far at the end of the
    string or at a whitespace. *)
Definition flush_word (word : string) : list string :=
  match word with
  | EmptyString => []
  | _ => [word]
  end.

(** The tables of the items of a queue. *)
Fixpoint sent_counters (items : list item) : list Counter :=
  match items with
  | [] => []
  | Batch c _ :: rest => c :: sent_counters rest
  | STOP_TOKEN :: rest => sent_counters rest
  end.

(** The words of a text followed by anything are the words of the text,
    then those of what follows: the text is empty or ends a line. *)
Definition closed_text (f : string) : Prop :=
  forall s, split (f ++ s) = (split f ++ split s)%list.

(** The counts a worker holds or has sent are the occurrences of the words
    of its partial file. *)
Definition counts_match_text (w : worker) : Prop :=
  forall x,
    getitem (counter w) (Word x) + total (sent_counters (counters w)) (Word x)
    = Z.of_nat (count_occ string_dec (split (partial_file w)) x).

(** The stages of [main] in the order of the source. *)
Definition all_stages : list stage :=
  [Prepare; Lmplz; Filter; Build_binary; Build_scorer].

(** The number of leading stages whose outputs are all there. *)
Definition first_missing (dir : outputs) : nat :=
  if negb (isfile_prepared dir && isfile_vocabulary dir) then 0
  else if negb (isfile_unfiltered dir) then 1
  else if negb (isfile_filtered dir) then 2
  else if negb (isfile_lm_binary dir) then 3
  else if negb (isfile_scorer dir) then 4
  else 5.

(** The stages of a list up to and including the first that fails. *)
Fixpoint until_failure (succeeds : stage -> bool) (stages : list stage) : list stage :=
  match stages with
  | [] => []
  | st :: rest => if succeeds st then st :: until_failure succeeds rest else [st]
  end.

(** The lines of a file: every line but the last ends with its only
    newline; the last one may have none, and is not empty. *)
Inductive line_structured : list (list byte) -> Prop :=
| ls_nil : line_structured []
| ls_last (l : list byte) :
    l <> [] -> Forall (fun b => b <> newline) l -> line_structured [l]
| ls_cons (l : list byte) (rest : list (list byte)) :
    Forall (fun b => b <> newline) l -> line_structured rest ->
    line_structured ((l ++ [newline]) :: rest).

(** The lines that are read from byte [s] of the text made of [lines]. *)
Fixpoint from_byte (s : nat) (lines : list (list byte)) : list (list byte) :=
  match lines with
  | [] => []
  | l :: rest =>
      if (s <? List.length l)%nat then skipn s l :: rest
      else from_byte (s - List.length l) rest
  end.

(** Lines with the position of their first byte, the first line being at
    [base]. *)
Fixpoint starts (base : Z) (lines : list (list byte)) : list (Z * list byte) :=
  match lines with
  | [] => []
  | l :: rest => (base, l) :: starts (base + Z.of_nat (List.length l)) rest
  end.

(** The lines that start after byte [lo], at byte [hi] at the latest. *)
Definition within_range (lo hi : Z) (pl : Z * list byte) : bool :=
  (lo <? fst pl) && (fst pl <=? hi).

Definition lines_between (lo hi : Z) (lines : list (list byte)) : list (list byte) :=
  map snd (filter (within_range lo hi) (starts 0 lines)).



(* ================================================================== *)
(** * Properties *)

(** ** Keys *)

Lemma key_eqb_refl (k : key) : key_eqb k k = true.
Proof.
  induction k as [w | k IH c]; simpl.
  - apply String.eqb_refl.
  - rewrite IH, Z.eqb_refl. reflexivity.
Qed.

Lemma key_eqb_eq (a b : key) : key_eqb a b = true <-> a = b.
Proof.
  split.
  - revert b. induction a as [w | k IH c]; intros [w' | k' c']; simpl; try discriminate.
    + intros H. apply String.eqb_eq in H. now subst.
    + intros H. apply andb_true_iff in H as [H1 H2].
      apply IH in H1. apply Z.eqb_eq in H2. now subst.
  - intros ->. apply key_eqb_refl.
Qed.

Lemma key_eqb_neq (a b : key) : key_eqb a b = false <-> a <> b.
Proof.
  split.
  - intros H E. apply key_eqb_eq in E. congruence.
  - intros H. destruct (key_eqb a b) eqn:E; [| reflexivity].
    apply key_eqb_eq in E. contradiction.
Qed.

Lemma key_eqb_spec (a b : key) : reflect (a = b) (key_eqb a b).
Proof.
  destruct (key_eqb a b) eqn:E; constructor.
  - now apply key_eqb_eq.
  - now apply key_eqb_neq.
Qed.

Lemma key_eq_dec (a b : key) : {a = b} + {a <> b}.
Proof. destruct (key_eqb_spec a b); [left | right]; assumption. Qed.

(** ** Counters as finite maps *)

Lemma getitem_notin (c : Counter) (k : key) :
  ~ In k (keys c) -> getitem c k = 0.
Proof.
  induction c as [| [k' n] c IH]; simpl; intros H; [reflexivity |].
  destruct (key_eqb_spec k k') as [-> | N].
  - exfalso. apply H. now left.
  - apply IH. intros I. apply H. now right.
Qed.

Lemma getitem_in (c : Counter) (k : key) (n : Z) :
  wf c -> In (k, n) c -> getitem c k = n.
Proof.
  unfold wf. induction c as [| [k' m] c IH]; simpl; intros W I; [contradiction |].
  inversion W as [| ? ? Hn Hw]; subst.
  destruct I as [E | I].
  - inversion E; subst. now rewrite key_eqb_refl.
  - destruct (key_eqb_spec k k') as [-> | N].
    + exfalso. apply Hn. change k' with (fst (k', n)). now apply in_map.
    + now apply IH.
Qed.

Lemma getitem_add_count (c : Counter) (k k' : key) (n : Z) :
  getitem (add_count c k n) k' =
  if key_eqb k' k then getitem c k' + n else getitem c k'.
Proof.
  induction c as [| [k0 m] c IH]; simpl.
  - destruct (key_eqb k' k); reflexivity.
  - destruct (key_eqb_spec k k0) as [-> | N]; simpl.
    + destruct (key_eqb k' k0); reflexivity.
    + rewrite IH. destruct (key_eqb_spec k' k0) as [-> | N'].
      * destruct (key_eqb_spec k0 k) as [E | _]; [congruence | reflexivity].
      * reflexivity.
Qed.

Lemma keys_add_count (c : Counter) (k : key) (n : Z) :
  keys (add_count c k n) = if in_dec key_eq_dec k (keys c) then keys c else (keys c ++ [k])%list.
Proof.
  induction c as [| [k0 m] c IH]; simpl.
  - reflexivity.
  - destruct (key_eqb_spec k k0) as [-> | N]; simpl.
    + destruct (key_eq_dec k0 k0) as [E | C]; [reflexivity | congruence].
    + fold (keys c). rewrite IH.
      destruct (key_eq_dec k0 k) as [C | N']; [congruence |].
      destruct (in_dec key_eq_dec k (keys c)); reflexivity.
Qed.

Lemma wf_add_count (c : Counter) (k : key) (n : Z) :
  wf c -> wf (add_count c k n).
Proof.
  unfold wf. intros W. rewrite keys_add_count.
  destruct (in_dec key_eq_dec k (keys c)) as [I | N]; [assumption |].
  apply NoDup_app; [assumption | repeat constructor; intros [] | ].
  intros x Hx [<- | []]. contradiction.
Qed.

Lemma getitem_update (other self : Counter) (k : key) :
  wf other -> getitem (update self other) k = getitem self k + getitem other k.
Proof.
  unfold wf, update. revert self.
  induction other as [| [k0 n] o IH]; simpl; intros self W; [lia |].
  inversion W as [| ? ? Hn Hw]; subst.
  rewrite (IH _ Hw), getitem_add_count.
  destruct (key_eqb_spec k k0) as [E | N]; [| reflexivity].
  subst. rewrite (getitem_notin o k0 Hn). lia.
Qed.

Lemma wf_update (other self : Counter) : wf self -> wf (update self other).
Proof.
  unfold update. revert self.
  induction other as [| [k0 n] o IH]; simpl; intros self W; [assumption |].
  apply IH. now apply wf_add_count.
Qed.

Lemma keys_filter_incl (p : key * Z -> bool) (c : Counter) (k : key) :
  In k (keys (filter p c)) -> In k (keys c).
Proof.
  unfold keys. intros H. apply in_map_iff in H as [x [E I]].
  apply filter_In in I as [I _]. apply in_map_iff. now exists x.
Qed.

Lemma wf_filter (p : key * Z -> bool) (c : Counter) : wf c -> wf (filter p c).
Proof.
  unfold wf. induction c as [| [k n] c IH]; simpl; intros W; [constructor |].
  inversion W as [| ? ? Hn Hw]; subst.
  destruct (p (k, n)); simpl; [| now apply IH].
  constructor; [| now apply IH].
  intros I. apply Hn. now apply (keys_filter_incl p).
Qed.

Lemma getitem_keep_positive (c : Counter) (k : key) :
  wf c -> getitem (keep_positive c) k = Z.max 0 (getitem c k).
Proof.
  unfold wf, keep_positive.
  induction c as [| [k0 n] c IH]; simpl; intros W; [reflexivity |].
  inversion W as [| ? ? Hn Hw]; subst.
  destruct (Z.ltb_spec 0 n) as [P | P]; simpl.
  - destruct (key_eqb_spec k k0); [lia | now apply IH].
  - destruct (key_eqb_spec k k0) as [E | N]; [| now apply IH].
    subst. rewrite getitem_notin; [lia |].
    intros I. apply Hn. now apply (keys_filter_incl (fun kc => 0 <? snd kc)).
Qed.

Lemma positive_keep_positive (c : Counter) : positive (keep_positive c).
Proof.
  unfold positive, keep_positive. apply Forall_forall. intros x I.
  apply filter_In in I as [_ I]. now apply Z.ltb_lt.
Qed.

Lemma getitem_nonneg (c : Counter) (k : key) : nonneg c -> 0 <= getitem c k.
Proof.
  unfold nonneg. induction c as [| [k0 n] c IH]; simpl; intros P; [lia |].
  inversion P; subst. destruct (key_eqb k k0); [assumption | now apply IH].
Qed.

Lemma positive_nonneg (c : Counter) : positive c -> nonneg c.
Proof. unfold positive, nonneg. apply Forall_impl. intros; lia. Qed.

Lemma wf_iadd (a b : Counter) : wf a -> wf (iadd a b).
Proof. intros W. unfold iadd, keep_positive. now apply wf_filter, wf_update. Qed.

Lemma positive_iadd (a b : Counter) : positive (iadd a b).
Proof. apply positive_keep_positive. Qed.

Lemma getitem_iadd (a b : Counter) (k : key) :
  wf a -> wf b -> getitem (iadd a b) k = Z.max 0 (getitem a k + getitem b k).
Proof.
  intros Wa Wb. unfold iadd.
  rewrite getitem_keep_positive by now apply wf_update.
  now rewrite getitem_update.
Qed.

Lemma getitem_iadd_nonneg (a b : Counter) (k : key) :
  wf a -> wf b -> nonneg a -> nonneg b ->
  getitem (iadd a b) k = getitem a k + getitem b k.
Proof.
  intros Wa Wb Pa Pb. rewrite getitem_iadd by assumption.
  pose proof (getitem_nonneg a k Pa). pose proof (getitem_nonneg b k Pb). lia.
Qed.

(** ** Merging batches *)

Lemma wf_nil : wf [].
Proof. constructor. Qed.

Lemma nonneg_nil : nonneg [].
Proof. constructor. Qed.

Lemma getitem_fold_iadd (bs : list Counter) (init : Counter) (k : key) :
  wf init -> nonneg init ->
  Forall (fun b => wf b /\ nonneg b) bs ->
  getitem (fold_left iadd bs init) k = getitem init k + total bs k.
Proof.
  revert init. induction bs as [| b bs IH]; simpl; intros init W P F; [lia |].
  inversion F as [| ? ? [Wb Pb] F']; subst.
  rewrite IH; auto using wf_iadd, positive_nonneg, positive_iadd.
  rewrite getitem_iadd_nonneg by assumption. lia.
Qed.

Lemma total_perm (bs bs' : list Counter) (k : key) :
  Permutation bs bs' -> total bs k = total bs' k.
Proof. induction 1; simpl; lia. Qed.

Lemma total_app (bs bs' : list Counter) (k : key) :
  total (bs ++ bs') k = total bs k + total bs' k.
Proof. induction bs; simpl; lia. Qed.

Lemma aggregate_never_pruned (ARGS : args) (bs : list (Counter * Z)) (overall : Counter) :
  never_pruned ARGS (map fst bs) overall = true ->
  aggregate_loop ARGS (map batch_item bs ++ [STOP_TOKEN]) overall
  = Some (fold_left iadd (map fst bs) overall).
Proof.
  revert overall. induction bs as [| [b n] bs IH]; simpl; intros overall H; [reflexivity |].
  apply andb_true_iff in H as [H1 H2]. apply negb_true_iff in H1.
  unfold merge. rewrite H1. now apply IH.
Qed.

Lemma Forall_map_fst (P : Counter -> Prop) (bs : list (Counter * Z)) :
  Forall (fun x => P (fst x)) bs -> Forall P (map fst bs).
Proof. induction 1; simpl; constructor; assumption. Qed.

(** C9: with unsigned counts, [+=] on counters is commutative and
    associative on per-word totals, and when the prune branch does not
    fire the table the aggregator holds at [STOP_TOKEN] has the same
    per-word totals for every arrival order of the same batches. *)
Theorem merge_order_independent (ARGS : args) (a b c : Counter)
  (bs bs' : list (Counter * Z)) :
  wf a -> wf b -> wf c -> nonneg a -> nonneg b -> nonneg c ->
  Forall (fun x => wf (fst x) /\ nonneg (fst x)) bs ->
  Permutation bs bs' ->
  never_pruned ARGS (map fst bs) [] = true ->
  never_pruned ARGS (map fst bs') [] = true ->
  (forall k, getitem (iadd a b) k = getitem (iadd b a) k)
  /\ (forall k, getitem (iadd (iadd a b) c) k = getitem (iadd a (iadd b c)) k)
  /\ exists t t',
      aggregate_loop ARGS (map batch_item bs ++ [STOP_TOKEN]) [] = Some t
      /\ aggregate_loop ARGS (map batch_item bs' ++ [STOP_TOKEN]) [] = Some t'
      /\ (forall k, getitem t k = total (map fst bs) k)
      /\ (forall k, getitem t k = getitem t' k).
Proof.
  intros Wa Wb Wc Pa Pb Pc F Perm N N'.
  split; [| split].
  - intros k. rewrite !getitem_iadd_nonneg by assumption. lia.
  - intros k.
    rewrite !getitem_iadd_nonneg;
      auto using wf_iadd, positive_nonneg, positive_iadd.
    lia.
  - exists (fold_left iadd (map fst bs) []), (fold_left iadd (map fst bs') []).
    assert (F' : Forall (fun x => wf (fst x) /\ nonneg (fst x)) bs').
    { eapply Permutation_Forall; eassumption. }
    repeat split; try now apply aggregate_never_pruned.
    + intros k. rewrite getitem_fold_iadd;
        auto using wf_nil, nonneg_nil.
      apply (Forall_map_fst (fun b => wf b /\ nonneg b)). assumption.
    + intros k. rewrite !getitem_fold_iadd;
        auto using wf_nil, nonneg_nil;
        try (apply (Forall_map_fst (fun b => wf b /\ nonneg b)); assumption).
      now rewrite (total_perm _ _ k (Permutation_map fst Perm)).
Qed.

(** ** [most_common] *)

Lemma insert_desc_perm (x : key * Z) (l : list (key * Z)) :
  Permutation (insert_desc x l) (x :: l).
Proof.
  induction l as [| y l IH]; simpl; [reflexivity |].
  destruct (snd y <=? snd x); [reflexivity |].
  rewrite IH. apply perm_swap.
Qed.

Lemma sort_desc_perm (l : list (key * Z)) : Permutation (sort_desc l) l.
Proof.
  induction l as [| x l IH]; simpl; [reflexivity |].
  rewrite insert_desc_perm. now constructor.
Qed.

Lemma insert_desc_sorted (x : key * Z) (l : list (key * Z)) :
  StronglySorted desc l -> StronglySorted desc (insert_desc x l).
Proof.
  induction l as [| y l IH]; simpl; intros S.
  - repeat constructor.
  - inversion S as [| ? ? S' F]; subst.
    destruct (Z.leb_spec (snd y) (snd x)) as [L | L].
    + constructor; [assumption |]. constructor; [exact L |].
      eapply Forall_impl; [| exact F]. unfold desc. intros; lia.
    + constructor; [now apply IH |].
      apply Forall_forall. intros z I.
      apply (Permutation_in _ (insert_desc_perm x l)) in I.
      destruct I as [<- | I]; [unfold desc; lia |].
      rewrite Forall_forall in F. now apply F.
Qed.

Lemma sort_desc_sorted (l : list (key * Z)) : StronglySorted desc (sort_desc l).
Proof.
  induction l as [| x l IH]; simpl; [constructor | now apply insert_desc_sorted].
Qed.

Lemma in_firstn {A : Type} (n : nat) (l : list A) (x : A) :
  In x (firstn n l) -> In x l.
Proof. intros I. rewrite <- (firstn_skipn n l). apply in_or_app. now left. Qed.

Lemma in_skipn {A : Type} (n : nat) (l : list A) (x : A) :
  In x (skipn n l) -> In x l.
Proof. intros I. rewrite <- (firstn_skipn n l). apply in_or_app. now right. Qed.

Lemma sorted_firstn (n : nat) (l : list (key * Z)) :
  StronglySorted desc l -> StronglySorted desc (firstn n l).
Proof.
  revert l. induction n as [| n IH]; intros [| x l] S; simpl; try constructor.
  - inversion S; subst. now apply IH.
  - inversion S as [| ? ? _ F]; subst.
    apply Forall_forall. intros y I. rewrite Forall_forall in F.
    apply F. now apply (in_firstn n l).
Qed.

Lemma sorted_firstn_skipn (n : nat) (l : list (key * Z)) (x y : key * Z) :
  StronglySorted desc l -> In x (firstn n l) -> In y (skipn n l) -> desc x y.
Proof.
  revert l. induction n as [| n IH]; intros [| z l] S; simpl; try contradiction.
  inversion S as [| ? ? S' F]; subst. intros [<- | I] J.
  - rewrite Forall_forall in F. apply F. now apply (in_skipn n l).
  - now apply (IH l).
Qed.

Lemma in_keys (c : Counter) (k : key) :
  In k (keys c) -> exists n, In (k, n) c.
Proof.
  unfold keys. intros H. apply in_map_iff in H as [[k' n] [E I]].
  simpl in E. subst. now exists n.
Qed.

Lemma keys_in (c : Counter) (k : key) (n : Z) : In (k, n) c -> In k (keys c).
Proof. intros I. unfold keys. change k with (fst (k, n)). now apply in_map. Qed.

Lemma getitem_positive_in (c : Counter) (k : key) :
  0 < getitem c k -> In k (keys c).
Proof.
  intros H. destruct (in_dec key_eq_dec k (keys c)) as [I | N]; [assumption |].
  rewrite getitem_notin in H by assumption. lia.
Qed.

Lemma sorted_keys (freq : key -> Z) (l : list (key * Z)) :
  (forall x, In x l -> freq (fst x) = snd x) ->
  StronglySorted desc l ->
  StronglySorted (fun k k' => freq k' <= freq k) (map fst l).
Proof.
  induction l as [| x l IH]; simpl; intros E S; [constructor |].
  inversion S as [| ? ? S' F]; subst.
  constructor; [apply IH; auto |].
  apply Forall_forall. intros k I. apply in_map_iff in I as [y [<- I]].
  rewrite Forall_forall in F. specialize (F y I). unfold desc in F.
  rewrite (E x), (E y); auto.
Qed.

(** The keys returned by [most_common n] are the [n] most frequent keys
    of a dict with positive counts. *)
Lemma most_common_top (n : Z) (t : Counter) :
  wf t -> positive t -> top_words (getitem t) n (map fst (most_common n t)).
Proof.
  intros W P. unfold most_common.
  set (s := sort_desc t). set (m := Z.to_nat n).
  assert (Ps : Permutation s t) by apply sort_desc_perm.
  assert (Ss : StronglySorted desc s) by apply sort_desc_sorted.
  assert (Ws : NoDup (map fst s)).
  { eapply Permutation_NoDup; [| exact W]. apply Permutation_map. now symmetry. }
  assert (Sp : s = (firstn m s ++ skipn m s)%list) by (symmetry; apply firstn_skipn).
  assert (In1 : forall x, In x (firstn m s) -> In x t).
  { intros x I. apply (Permutation_in _ Ps). now apply (in_firstn m s). }
  assert (G : forall x, In x t -> getitem t (fst x) = snd x).
  { intros [k c] I. now apply getitem_in. }
  repeat split.
  - rewrite Sp, map_app in Ws. now apply NoDup_app_remove_r in Ws.
  - intros k I. apply in_map_iff in I as [x [<- I]].
    rewrite (G x) by auto. unfold positive in P. rewrite Forall_forall in P. auto.
  - apply sorted_keys; [auto | now apply sorted_firstn].
  - intros k k' I N.
    apply in_map_iff in I as [x [<- I]].
    destruct (Z.ltb_spec 0 (getitem t k')) as [L | L].
    + apply getitem_positive_in, in_keys in L as [c' J].
      assert (J' : In (k', c') s) by (apply (Permutation_in _ (Permutation_sym Ps)); assumption).
      rewrite Sp in J'. apply in_app_or in J' as [J' | J'].
      * exfalso. apply N. change k' with (fst (k', c')). now apply in_map.
      * pose proof (sorted_firstn_skipn m s x (k', c') Ss I J') as D.
        unfold desc in D. simpl in D.
        rewrite (G x) by auto. rewrite (getitem_in t k' c' W J). exact D.
    + rewrite (G x) by auto. unfold positive in P. rewrite Forall_forall in P.
      specialize (P x (In1 x I)). lia.
  - rewrite length_map, length_firstn.
    destruct (Nat.le_gt_cases m (List.length s)) as [L | L].
    + left. rewrite Nat.min_l by assumption. unfold m. lia.
    + right. rewrite Nat.min_r by lia. split; [unfold m in L; lia |].
      intros k Hk. apply getitem_positive_in, in_keys in Hk as [c J].
      rewrite firstn_all2 by lia.
      apply keys_in with (n := c). apply (Permutation_in _ (Permutation_sym Ps)). assumption.
Qed.






Lemma str_key_words (str_tuple : key -> Z -> string) (ws : list string) :
  map (str_key str_tuple) (map Word ws) = ws.
Proof. induction ws as [| w ws IH]; simpl; [reflexivity | now rewrite IH]. Qed.


(** ** After a prune *)

Lemma keys_Counter_of (elems : list key) (init : Counter) (k : key) :
  In k (keys (fold_left (fun c e => add_count c e 1) elems init)) ->
  In k (keys init) \/ In k elems.
Proof.
  revert init. induction elems as [| e l IH]; simpl; intros init I; [now left |].
  apply IH in I as [I | I]; [| now right; right].
  rewrite keys_add_count in I.
  destruct (in_dec key_eq_dec e (keys init)); [now left |].
  apply in_app_or in I as [I | [<- | []]]; [now left | right; now left].
Qed.

(** Every key of the table built by the prune step is a tuple. *)
Lemma prune_keys_are_tuples (ARGS : args) (overall : Counter) (k : key) :
  In k (keys (prune ARGS overall)) -> exists k' c, k = Tup k' c.
Proof.
  unfold prune, Counter_of. intros I.
  apply keys_Counter_of in I as [[] | I].
  apply in_map_iff in I as [[k' c] [<- _]]. now exists k', c.
Qed.

Lemma length_add_count (c : Counter) (k : key) (n : Z) :
  (List.length (add_count c k n) <= S (List.length c))%nat.
Proof.
  induction c as [| [k0 m] c IH]; simpl; [lia |].
  destruct (key_eqb k k0); simpl; lia.
Qed.

Lemma length_Counter_of (elems : list key) :
  (List.length (Counter_of elems) <= List.length elems)%nat.
Proof.
  unfold Counter_of.
  assert (H : forall init,
             (List.length (fold_left (fun c e => add_count c e 1) elems init)
              <= List.length init + List.length elems)%nat).
  { induction elems as [| e l IH]; simpl; intros init; [lia |].
    specialize (IH (add_count init e 1)).
    pose proof (length_add_count init e 1). lia. }
  apply (H []).
Qed.

(** The size half of the invariant holds: with a prune factor of at least
    1, the table has at most [prune_factor * vocabulary_size] keys after
    every item. *)
Lemma merge_size_bound (ARGS : args) (overall counter : Counter) :
  1 <= ARGS_prune_factor ARGS -> 0 <= ARGS_vocabulary_size ARGS ->
  len_keys (merge ARGS overall counter)
  <= ARGS_prune_factor ARGS * ARGS_vocabulary_size ARGS.
Proof.
  intros P V. unfold merge.
  destruct (prune_due ARGS (iadd overall counter)) eqn:D.
  - unfold prune, len_keys.
    pose proof (length_Counter_of
                  (map (fun kc => Tup (fst kc) (snd kc))
                     (most_common (ARGS_vocabulary_size ARGS) (iadd overall counter)))) as L.
    rewrite length_map in L. unfold most_common in L.
    pose proof (firstn_le_length (Z.to_nat (ARGS_vocabulary_size ARGS))
                  (sort_desc (iadd overall counter))) as L'.
    set (n := List.length (Counter_of _)) in *.
    assert (Z.of_nat n <= ARGS_vocabulary_size ARGS) by lia.
    nia.
  - unfold prune_due in D. lia.
Qed.

(** C3: with [vocabulary_size = 1] and [prune_factor = 1], the batch
    [{a: 2, b: 1}] makes the table exceed the threshold; the table after
    the prune is [{('a', 2): 1}], not [{a: 2}]: the word [a] has count 0
    in it, and the vocabulary file holds the text of the tuple. *)
Theorem prune_counts_tuples :
  let batch := [(Word "a", 2); (Word "b", 1)] in
  prune_due ARGS_prune (iadd [] batch) = true
  /\ most_common 1 (iadd [] batch) = [(Word "a", 2)]
  /\ merge ARGS_prune [] batch = [(Tup (Word "a") 2, 1)]
  /\ getitem (merge ARGS_prune [] batch) (Word "a") = 0
  /\ aggregate_counters ARGS_prune str_tuple_plain [Batch batch 4; STOP_TOKEN]
     = Some (str_tuple_plain (Word "a") 2).
Proof. repeat split. Qed.

(** ** Reading lines *)

Lemma concat_splitlines (data : list byte) : List.concat (splitlines data) = data.
Proof.
  induction data as [| b rest IH]; simpl; [reflexivity |].
  destruct (Byte.eqb b newline); simpl; [now rewrite IH |].
  destruct (splitlines rest) as [| line lines]; simpl in *.
  - now rewrite <- IH.
  - now rewrite IH.
Qed.

Lemma total_length_nonneg (lines : list (list byte)) : 0 <= total_length lines.
Proof. unfold total_length. lia. Qed.

Lemma total_length_cons (line : list byte) (lines : list (list byte)) :
  total_length (line :: lines) = Z.of_nat (List.length line) + total_length lines.
Proof. unfold total_length. simpl. rewrite length_app. lia. Qed.

Lemma total_length_take_hint (hint n : Z) (lines : list (list byte)) :
  total_length (take_hint hint n lines) <= total_length lines.
Proof.
  revert n. induction lines as [| line rest IH]; simpl; intros n; [lia |].
  rewrite !total_length_cons.
  destruct (Z.of_nat (List.length line) >? hint - n).
  - pose proof (total_length_nonneg rest). unfold total_length at 1. simpl. lia.
  - specialize (IH (n + Z.of_nat (List.length line))). lia.
Qed.

Lemma total_length_readlines (hint : Z) (data : list byte) :
  total_length (readlines hint data) <= Z.of_nat (List.length data).
Proof.
  unfold readlines.
  assert (E : total_length (splitlines data) = Z.of_nat (List.length data)).
  { unfold total_length. now rewrite concat_splitlines. }
  destruct (hint <=? 0); [lia |].
  rewrite <- E. apply total_length_take_hint.
Qed.

Lemma total_length_tl (lines : list (list byte)) :
  total_length (tl lines) <= total_length lines.
Proof.
  destruct lines as [| l r]; simpl; [lia |]. rewrite total_length_cons. lia.
Qed.

Section WorkerFacts.

Variable clean : list byte -> option (list string).
Variable ARGS : args.
Variable unprepared : list byte.

Let size := getsize unprepared.

Lemma read_block_length (end_ : Z) (w : worker) :
  offset w + total_length (read_block ARGS unprepared end_ w) <= Z.max (offset w) size.
Proof.
  unfold read_block.
  pose proof (total_length_readlines (read_hint ARGS end_ (pos w))
                (skipn (Z.to_nat (offset w)) unprepared)) as H.
  rewrite length_skipn in H. unfold size, getsize. lia.
Qed.

Lemma read_block_nonneg (end_ : Z) (w : worker) :
  0 <= total_length (read_block ARGS unprepared end_ w).
Proof. apply total_length_nonneg. Qed.

(** The position after an iteration, whatever the fault. *)
Lemma block_pos (index start end_ : Z) (flt : fault) (w : worker) :
  pos (block clean ARGS unprepared index start end_ flt w) = pos w
  /\ offset (block clean ARGS unprepared index start end_ flt w) = offset w
  \/ pos (block clean ARGS unprepared index start end_ flt w)
     = offset w + total_length (read_block ARGS unprepared end_ w)
     /\ offset (block clean ARGS unprepared index start end_ flt w)
        = offset w + total_length (read_block ARGS unprepared end_ w).
Proof.
  unfold block.
  destruct flt; [right | now left | right];
    destruct (clean_lines clean (kept_lines ARGS unprepared index start end_ w));
    try destruct (flush_due end_ _ _); simpl; auto.
Qed.

End WorkerFacts.

(** ** A shard that ends beyond the end of the file *)

Section Termination.

Variable clean : list byte -> option (list string).
Variable ARGS : args.
Variable unprepared : list byte.

Lemma block_within (index start end_ : Z) (flt : fault) (w : worker) :
  within unprepared start w -> within unprepared start (block clean ARGS unprepared index start end_ flt w).
Proof.
  intros [E L]. unfold within.
  pose proof (read_block_length ARGS unprepared end_ w) as R.
  destruct (block_pos clean ARGS unprepared index start end_ flt w) as [[P O] | [P O]];
    rewrite P, O; split; lia.
Qed.

Lemma loop_beyond_eof (fuel : nat) (index start end_ : Z) (faults : list fault)
  (w : worker) :
  within unprepared start w -> Z.max start (getsize unprepared) < end_ ->
  loop clean ARGS unprepared fuel index start end_ faults w = None.
Proof.
  revert faults w. induction fuel as [| fuel IH]; intros faults w W B; simpl.
  - destruct W as [E L]. destruct (Z.ltb_spec (pos w) end_); [reflexivity | lia].
  - destruct (Z.ltb_spec (pos w) end_) as [_ | G].
    + apply IH; [now apply block_within | assumption].
    + destruct W as [E L]. lia.
Qed.

Lemma ceil_div_mul (a b : Z) : 0 < b -> a <= ceil_div a b * b.
Proof.
  intros B. unfold ceil_div.
  pose proof (Z.div_mod (- a) b ltac:(lia)) as D.
  pose proof (Z.mod_pos_bound (- a) b B) as M. nia.
Qed.

Lemma ceil_div_mul_lt (a b : Z) : 0 < b -> a mod b <> 0 -> a < ceil_div a b * b.
Proof.
  intros B N. unfold ceil_div.
  pose proof (Z.div_mod (- a) b ltac:(lia)) as D.
  pose proof (Z.mod_pos_bound (- a) b B) as M.
  assert ((- a) mod b <> 0).
  { intros Z0. apply N. apply Z.mod_divide in Z0; [| lia].
    apply Z.mod_divide; [lia |]. destruct Z0 as [q Hq]. exists (- q). lia. }
  nia.
Qed.

Lemma ceil_div_pos (a b : Z) : 0 < b -> 0 < a -> 0 < ceil_div a b.
Proof. intros B A. pose proof (ceil_div_mul a b B). nia. Qed.

Lemma ceil_div_nonneg (a b : Z) : 0 < b -> 0 <= a -> 0 <= ceil_div a b.
Proof.
  intros B A. unfold ceil_div.
  assert ((- a) / b <= 0); [| lia].
  apply Z.div_le_upper_bound; lia.
Qed.

(** A worker whose shard ends beyond the end of the file never returns. *)
Lemma count_words_beyond_eof (fuel : nat) (faults : list fault) (index : Z) :
  ARGS_workers ARGS <> 0 ->
  shard_start ARGS unprepared index < shard_end ARGS unprepared index ->
  getsize unprepared < shard_end ARGS unprepared index ->
  count_words clean ARGS unprepared fuel true faults index = None.
Proof.
  intros W S E. unfold count_words.
  destruct (Z.eqb_spec (ARGS_workers ARGS) 0); [contradiction |]. simpl.
  rewrite loop_beyond_eof; [reflexivity | | lia].
  split; simpl; lia.
Qed.

End Termination.

Lemma join_all_none (processes : list (option outcome)) :
  In None processes -> join_all processes = None.
Proof.
  induction processes as [| [o |] l IH]; simpl; intros I; try contradiction.
  - destruct I as [I | I]; [discriminate |]. now rewrite IH.
  - reflexivity.
Qed.

Lemma in_range (n i : Z) : 0 <= i < n -> In i (range n).
Proof.
  intros H. unfold range. apply in_map_iff. exists (Z.to_nat i).
  split; [lia |]. apply in_seq. lia.
Qed.

(** C2: when the size of the file is not a multiple of the number of
    workers, the end of the last shard lies beyond the end of the file and
    the loop of the last worker never exits, whatever the number of
    iterations and the faults; [main] then never gets past its [join]. *)
Theorem last_worker_never_returns (clean : list byte -> option (list string))
  (str_tuple : key -> Z -> string) (ARGS : args) (unprepared : list byte)
  (opens : Z -> bool) (faults : Z -> list fault) (fuel : nat) :
  1 <= ARGS_workers ARGS ->
  getsize unprepared mod ARGS_workers ARGS <> 0 ->
  opens (ARGS_workers ARGS - 1) = true ->
  getsize unprepared < shard_end ARGS unprepared (ARGS_workers ARGS - 1)
  /\ count_words clean ARGS unprepared fuel true (faults (ARGS_workers ARGS - 1))
       (ARGS_workers ARGS - 1) = None
  /\ main_prepare clean str_tuple ARGS unprepared opens faults fuel = None.
Proof.
  intros W M O.
  set (n := ARGS_workers ARGS) in *.
  assert (Sz : 0 < getsize unprepared).
  { unfold getsize.
    destruct (Z.eq_dec (Z.of_nat (List.length unprepared)) 0) as [E | E]; [| lia].
    exfalso. apply M. unfold getsize. rewrite E. apply Zmod_0_l. }
  assert (B : 0 < block_size ARGS unprepared).
  { unfold block_size. apply ceil_div_pos; fold n; lia. }
  assert (E : getsize unprepared < shard_end ARGS unprepared (n - 1)).
  { unfold shard_end, shard_start.
    pose proof (ceil_div_mul_lt (getsize unprepared) n ltac:(lia) M) as L.
    fold n in L. unfold block_size. fold n. lia. }
  assert (C : forall fl, count_words clean ARGS unprepared fuel true fl (n - 1) = None).
  { intros fl. apply count_words_beyond_eof; fold n; try lia.
    unfold shard_end. lia. }
  split; [exact E |]. split; [apply C |].
  unfold main_prepare. rewrite join_all_none; [reflexivity |].
  apply in_map_iff. exists (n - 1). fold n. rewrite O. split; [apply C |].
  apply in_range. lia.
Qed.

(** ** Counting the words of a block *)

Lemma count_lines_flat (lines : list string) (c : Counter) :
  count_lines c lines = count_list c (flat_map split lines).
Proof.
  unfold count_lines, count_list. revert c.
  induction lines as [| l r IH]; simpl; intros c; [reflexivity |].
  rewrite fold_left_app. apply IH.
Qed.

Lemma positive_add_count (c : Counter) (k : key) (n : Z) :
  positive c -> 0 < n -> positive (add_count c k n).
Proof.
  unfold positive. induction c as [| [k0 m] c IH]; simpl; intros P N.
  - repeat constructor. simpl. lia.
  - inversion P as [| ? ? Pm Pc]; subst. simpl in Pm.
    destruct (key_eqb k k0); constructor; simpl; auto; lia.
Qed.

Lemma count_list_keys (words : list string) (c : Counter) :
  exists new,
    keys (count_list c words) = (keys c ++ map Word new)%list
    /\ NoDup new
    /\ forall x, In x new <-> In x words /\ ~ In (Word x) (keys c).
Proof.
  unfold count_list. revert c.
  induction words as [| x r IH]; simpl; intros c.
  - exists []. simpl. rewrite app_nil_r. repeat split; try constructor; tauto.
  - destruct (IH (add_count c (Word x) 1)) as (new & K & D & I).
    rewrite keys_add_count in K, I.
    destruct (in_dec key_eq_dec (Word x) (keys c)) as [H | H].
    + exists new. split; [assumption |]. split; [assumption |].
      intros y. split.
      * intros J. apply I in J as [J N]. split; [now right | assumption].
      * intros [[<- | J] N]; [contradiction |]. apply I. now split.
    + exists (x :: new). split; [| split].
      * rewrite K, <- app_assoc. reflexivity.
      * constructor; [| assumption]. intros J. apply I in J as [_ J].
        apply J. apply in_or_app. right. now left.
      * intros y. split.
        -- intros [<- | J]; [split; [now left | assumption] |].
           apply I in J as [J N]. split; [now right |].
           intros C. apply N. apply in_or_app. now left.
        -- intros [[<- | J] N]; [now left |].
           destruct (string_dec x y) as [-> | Nx]; [now left | right].
           apply I. split; [assumption |]. intros C.
           apply in_app_or in C as [C | [C | []]]; [contradiction |].
           inversion C. contradiction.
Qed.

Lemma count_list_word_counts (words : list string) (c : Counter) :
  wf c -> positive c -> Forall is_word (keys c) ->
  wf (count_list c words) /\ positive (count_list c words)
  /\ Forall is_word (keys (count_list c words)).
Proof.
  intros W P K. split; [| split].
  - unfold count_list. revert c W P K.
    induction words as [| x r IH]; simpl; intros c W P K; [assumption |].
    apply IH; auto using wf_add_count, positive_add_count.
    + apply positive_add_count; [assumption | lia].
    + rewrite keys_add_count. destruct (in_dec key_eq_dec (Word x) (keys c)); [assumption |].
      apply Forall_app. split; [assumption |]. repeat constructor. now exists x.
  - unfold count_list. revert c W P K.
    induction words as [| x r IH]; simpl; intros c W P K; [assumption |].
    apply IH; auto using wf_add_count.
    + apply positive_add_count; [assumption | lia].
    + rewrite keys_add_count. destruct (in_dec key_eq_dec (Word x) (keys c)); [assumption |].
      apply Forall_app. split; [assumption |]. repeat constructor. now exists x.
  - destruct (count_list_keys words c) as (new & E & _ & _). rewrite E.
    apply Forall_app. split; [assumption |].
    apply Forall_forall. intros k I. apply in_map_iff in I as [w [<- _]]. now exists w.
Qed.

(** ** The worker's loop *)

Lemma reachable_inv (clean : list byte -> option (list string)) (ARGS : args)
  (unprepared : list byte) (index : Z) (w : worker) :
  reachable clean ARGS unprepared index w ->
  wf (counter w) /\ positive (counter w) /\ Forall is_word (keys (counter w))
  /\ len_keys (counter w) <= MAX_KEYS /\ Forall sent_ok (counters w).
Proof.
  induction 1 as [| w flt R (W & P & K & L & S) G F].
  - simpl. repeat split; try constructor. unfold len_keys, MAX_KEYS. simpl. lia.
  - unfold block. destruct flt as [| | n]; [| tauto | now destruct (F n)].
    destruct (clean_lines clean _) as [lines |]; simpl; [| tauto].
    rewrite count_lines_flat.
    destruct (count_list_word_counts (flat_map split lines) (counter w) W P K)
      as (W' & P' & K').
    destruct (flush_due _ _ _) eqn:D; simpl.
    + repeat split; try constructor. { unfold len_keys, MAX_KEYS. simpl. lia. }
      apply Forall_app. split; [assumption |]. repeat constructor; simpl; auto.
      now apply positive_nonneg.
    + repeat split; try assumption.
      unfold flush_due in D. apply orb_false_iff in D as [D _]. lia.
Qed.

(** The states of a run of the loop in which no write raises are
    reachable. *)
Lemma loop_reachable (clean : list byte -> option (list string)) (ARGS : args)
  (unprepared : list byte) (index : Z) (fuel : nat) (faults : list fault)
  (w w' : worker) :
  reachable clean ARGS unprepared index w ->
  writes_succeed faults ->
  loop clean ARGS unprepared fuel index (shard_start ARGS unprepared index)
    (shard_end ARGS unprepared index) faults w = Some w' ->
  reachable clean ARGS unprepared index w'.
Proof.
  revert faults w. induction fuel as [| fuel IH]; intros faults w R F; simpl;
    destruct (Z.ltb_spec (pos w) (shard_end ARGS unprepared index)) as [G | G];
    try discriminate; try (intros E; inversion E; subst; assumption).
  apply IH.
  - apply reach_block; [assumption | exact G |].
    destruct F; simpl; [discriminate | assumption].
  - destruct F; simpl; [constructor | assumption].
Qed.

(** Every item a worker puts on the queue is a dict from words to unsigned
    counts. *)
Lemma count_words_sends_word_counts (clean : list byte -> option (list string))
  (ARGS : args) (unprepared : list byte) (index : Z) (fuel : nat)
  (opens : bool) (faults : list fault) (w : worker) :
  writes_succeed faults ->
  count_words clean ARGS unprepared fuel opens faults index = Some (Returned w) ->
  Forall sent_ok (counters w).
Proof.
  intros F. unfold count_words.
  destruct (ARGS_workers ARGS =? 0); [discriminate |].
  destruct opens; simpl; [| discriminate].
  destruct (loop _ _ _ _ _ _ _ _ _) as [w0 |] eqn:E; [| discriminate].
  intros H. inversion H; subst.
  apply (reachable_inv clean ARGS unprepared index).
  eapply loop_reachable; [apply reach_opened | exact F | exact E].
Qed.


(** C10: a worker whose byte range is empty, as every worker's is on an
    empty file, returns at the first test of its loop: it has put nothing
    on the queue and its partial file exists and is empty. *)
Theorem empty_shard_sends_nothing (clean : list byte -> option (list string))
  (ARGS : args) (unprepared : list byte) (fuel : nat) (faults : list fault)
  (index : Z) :
  1 <= ARGS_workers ARGS ->
  unprepared = [] \/ shard_end ARGS unprepared index <= shard_start ARGS unprepared index ->
  exists w,
    count_words clean ARGS unprepared fuel true faults index = Some (Returned w)
    /\ counters w = [] /\ partial_file w = EmptyString.
Proof.
  intros W H.
  assert (E : shard_end ARGS unprepared index <= shard_start ARGS unprepared index).
  { destruct H as [-> | H]; [| exact H].
    unfold shard_end, shard_start, block_size, getsize, ceil_div.
    change (- Z.of_nat (List.length (@nil byte))) with 0.
    rewrite Zdiv_0_l. lia. }
  exists (opened ARGS unprepared index). unfold count_words.
  destruct (Z.eqb_spec (ARGS_workers ARGS) 0); [lia |]. simpl.
  assert (L : forall f, loop clean ARGS unprepared f index (shard_start ARGS unprepared index)
                (shard_end ARGS unprepared index) faults (opened ARGS unprepared index)
              = Some (opened ARGS unprepared index)).
  { intros f. destruct f; simpl;
      destruct (Z.ltb_spec (shard_start ARGS unprepared index)
                  (shard_end ARGS unprepared index)); try lia; reflexivity. }
  rewrite L. auto.
Qed.

(** C7: the hint of a read is the larger, not the smaller, of
    [--block-size] and the rest of the shard.  With 2 workers and a block
    size of 1 on the 8 bytes of [file_abcd], the first read of worker 0
    asks for 4 bytes and returns 6, where the smaller of the block size and
    the rest of the shard is 1. *)
Theorem read_hint_exceeds_block_size :
  (forall ARGS end_ p,
      ARGS_block_size ARGS <= read_hint ARGS end_ p
      /\ end_ - p <= read_hint ARGS end_ p
      /\ Z.min (ARGS_block_size ARGS) (end_ - p) <= read_hint ARGS end_ p)
  /\ let ARGS := ARGS_with 2 1 in
     let w := opened ARGS file_abcd 0 in
     let end_ := shard_end ARGS file_abcd 0 in
     end_ = 4 /\ pos w = 0
     /\ Z.min (ARGS_block_size ARGS) (end_ - pos w) = 1
     /\ read_hint ARGS end_ (pos w) = 4
     /\ read_block ARGS file_abcd end_ w
        = map (fun l => (list_byte_of_string l ++ [newline])%list) ["a"; "b"; "c"]%string
     /\ total_length (read_block ARGS file_abcd end_ w) = 6.
Proof.
  split.
  - intros ARGS end_ p. unfold read_hint. lia.
  - repeat split.
Qed.

(** ** Shards and lines *)

(** C1: 3 workers, a block size of 100 and the 12 bytes of [file_efg]: the
    shards are [0,4), [4,8) and [8,12) and the line [efg] (bytes 6 to 9)
    straddles the boundary at 8.  Worker 2 drops its fragment, worker 1
    reads it to its end, and worker 0, whose hint is the block size, reads
    it as well: the line is written twice and counted twice. *)
Theorem straddling_line_counted_twice :
  let ARGS := ARGS_with 3 100 in
  let run := count_words clean_plain ARGS file_efg 1 true [] in
  shard_end ARGS file_efg 1 = 8
  /\ shard_start ARGS file_efg 2 = 8
  /\ run 0 = Some (Returned
       {| pos := 12; old_pos := 12; counter := []; offset := 12;
          partial_file := text_of ["ab"; "cd"; "efg"; "h"]%string;
          counters := [Batch [(Word "ab", 1); (Word "cd", 1); (Word "efg", 1);
                              (Word "h", 1)] 12] |})
  /\ run 1 = Some (Returned
       {| pos := 12; old_pos := 12; counter := []; offset := 12;
          partial_file := text_of ["efg"; "h"]%string;
          counters := [Batch [(Word "efg", 1); (Word "h", 1)] 8] |})
  /\ run 2 = Some (Returned
       {| pos := 12; old_pos := 12; counter := []; offset := 12;
          partial_file := text_of ["h"]%string;
          counters := [Batch [(Word "h", 1)] 4] |})
  /\ option_map prepared_txt
       (main_prepare clean_plain str_tuple_plain ARGS file_efg all_open no_faults 1)
     = Some (Some (text_of ["ab"; "cd"; "efg"; "h"; "efg"; "h"; "h"]%string))
  /\ total [[(Word "ab", 1); (Word "cd", 1); (Word "efg", 1); (Word "h", 1)];
            [(Word "efg", 1); (Word "h", 1)]; [(Word "h", 1)]] (Word "efg") = 2.
Proof. repeat split. Qed.

(** C4: 2 workers, a block size of 100 and the 8 bytes of [file_abcd]: the
    partial files put together hold the line [d] twice, and differ from the
    output of the same run with one worker. *)
Theorem sharded_output_differs :
  let sharded := main_prepare clean_plain str_tuple_plain (ARGS_with 2 100)
                   file_abcd all_open no_faults 1 in
  let sequential := main_prepare clean_plain str_tuple_plain (ARGS_with 1 100)
                      file_abcd all_open no_faults 1 in
  option_map prepared_txt sharded = Some (Some (text_of ["a"; "b"; "c"; "d"; "d"]%string))
  /\ option_map prepared_txt sequential = Some (Some (text_of ["a"; "b"; "c"; "d"]%string))
  /\ option_map prepared_txt sharded <> option_map prepared_txt sequential.
Proof. repeat split. discriminate. Qed.

(** ** Errors *)




(* ================================================================== *)
(** * The statements at concrete inputs *)

Ltac solve_nodup :=
  repeat (constructor; [simpl; intuition discriminate |]); constructor.

Ltac solve_forall := repeat constructor; simpl; try lia; try (eexists; reflexivity).

Lemma word_counts_batch_x : word_counts batch_x.
Proof. split; [unfold wf; simpl; solve_nodup | split; solve_forall]. Defined.

Lemma word_counts_batch_y : word_counts batch_y.
Proof. split; [unfold wf; simpl; solve_nodup | split; solve_forall]. Defined.

Lemma word_counts_batch_xz : word_counts batch_xz.
Proof. split; [unfold wf; simpl; solve_nodup | split; solve_forall]. Defined.

Ltac solve_batch :=
  simpl; first [apply word_counts_batch_x | apply word_counts_batch_y
               | apply word_counts_batch_xz].

Lemma merge_order_independent_witness :
  let bs := [(batch_x, 2); (batch_y, 2); (batch_xz, 4)] in
  let bs' := [(batch_y, 2); (batch_x, 2); (batch_xz, 4)] in
  (forall k, getitem (iadd batch_x batch_y) k = getitem (iadd batch_y batch_x) k)
  /\ (forall k, getitem (iadd (iadd batch_x batch_y) batch_xz) k
                = getitem (iadd batch_x (iadd batch_y batch_xz)) k)
  /\ exists t t',
      aggregate_loop (ARGS_with 1 1) (map batch_item bs ++ [STOP_TOKEN]) [] = Some t
      /\ aggregate_loop (ARGS_with 1 1) (map batch_item bs' ++ [STOP_TOKEN]) [] = Some t'
      /\ (forall k, getitem t k = total (map fst bs) k)
      /\ (forall k, getitem t k = getitem t' k).
Proof.
  intros bs bs'.
  apply (merge_order_independent (ARGS_with 1 1) batch_x batch_y batch_xz bs bs').
  - apply word_counts_batch_x.
  - apply word_counts_batch_y.
  - apply word_counts_batch_xz.
  - apply word_counts_batch_x.
  - apply word_counts_batch_y.
  - apply word_counts_batch_xz.
  - repeat (apply Forall_cons; [split; solve_batch |]). apply Forall_nil.
  - apply perm_swap.
  - reflexivity.
  - reflexivity.
Defined.


Lemma last_worker_never_returns_witness :
  getsize file_ab < shard_end (ARGS_with 2 1) file_ab 1
  /\ count_words clean_plain (ARGS_with 2 1) file_ab 1000 true [] 1 = None
  /\ main_prepare clean_plain str_tuple_plain (ARGS_with 2 1) file_ab all_open
       no_faults 1000 = None.
Proof.
  apply (last_worker_never_returns clean_plain str_tuple_plain (ARGS_with 2 1)
           file_ab all_open no_faults 1000).
  - simpl. lia.
  - vm_compute. discriminate.
  - reflexivity.
Defined.


Lemma empty_shard_sends_nothing_witness :
  exists w,
    count_words clean_plain (ARGS_with 3 1) [] 0 true [] 1 = Some (Returned w)
    /\ counters w = [] /\ partial_file w = EmptyString.
Proof.
  apply (empty_shard_sends_nothing clean_plain (ARGS_with 3 1) [] 0 [] 1).
  - simpl. lia.
  - left. reflexivity.
Defined.


(* ================================================================== *)
(** * Further properties of the code *)

(** ** Shard arithmetic (lines 31-33) *)



(** ** One read per shard (lines 37-43) *)

Lemma take_hint_reach (hint n : Z) (lines : list (list byte)) :
  hint < n + total_length (take_hint hint n lines)
  \/ take_hint hint n lines = lines.
Proof.
  revert n. induction lines as [| l r IH]; simpl; intros n; [now right |].
  destruct (Z.gtb_spec (Z.of_nat (List.length l)) (hint - n)) as [G | G].
  - left. rewrite total_length_cons. pose proof (total_length_nonneg []). lia.
  - destruct (IH (n + Z.of_nat (List.length l))) as [H | H].
    + left. rewrite total_length_cons. lia.
    + right. now rewrite H.
Qed.

Lemma readlines_reach (hint : Z) (data : list byte) :
  hint < total_length (readlines hint data)
  \/ total_length (readlines hint data) = Z.of_nat (List.length data).
Proof.
  assert (E : total_length (splitlines data) = Z.of_nat (List.length data)).
  { unfold total_length. now rewrite concat_splitlines. }
  unfold readlines. destruct (hint <=? 0); [now right |].
  destruct (take_hint_reach hint 0 (splitlines data)) as [H | H].
  - left. lia.
  - right. now rewrite H.
Qed.

Lemma block_pos_read (clean : list byte -> option (list string)) (ARGS : args)
  (unprepared : list byte) (index start end_ : Z) (flt : fault) (w : worker) :
  flt <> ReadFault ->
  pos (block clean ARGS unprepared index start end_ flt w)
  = offset w + total_length (read_block ARGS unprepared end_ w).
Proof.
  intros F. unfold block.
  destruct flt; try contradiction;
    destruct (clean_lines clean (kept_lines ARGS unprepared index start end_ w));
    try destruct (flush_due end_ _ _); reflexivity.
Qed.

(** X2: a worker whose shard ends within the file leaves its loop after
    one iteration, provided that iteration's [readlines] does not raise:
    the read goes past the end of the shard or to the end of the file.
    More iterations change nothing. *)
Theorem worker_returns_after_one_read (clean : list byte -> option (list string))
  (ARGS : args) (unprepared : list byte) (index : Z) (faults : list fault)
  (fuel : nat) :
  1 <= ARGS_workers ARGS -> 0 <= index ->
  shard_end ARGS unprepared index <= getsize unprepared ->
  hd NoFault faults <> ReadFault ->
  exists w,
    count_words clean ARGS unprepared (S fuel) true faults index = Some (Returned w)
    /\ count_words clean ARGS unprepared 1 true faults index = Some (Returned w)
    /\ shard_end ARGS unprepared index <= pos w <= getsize unprepared.
Proof.
  intros W I E F.
  set (start := shard_start ARGS unprepared index).
  set (end_ := shard_end ARGS unprepared index) in *.
  assert (B : 0 <= block_size ARGS unprepared).
  { unfold block_size. apply ceil_div_nonneg; [lia | unfold getsize; lia]. }
  assert (S0 : 0 <= start) by (unfold start, shard_start; nia).
  assert (SE : start <= end_) by (unfold end_, shard_end; fold start; lia).
  unfold count_words.
  destruct (Z.eqb_spec (ARGS_workers ARGS) 0); [lia |]. simpl negb. cbv iota.
  fold start end_.
  destruct (Z.lt_ge_cases start end_) as [Lt | Ge].
  - set (w1 := block clean ARGS unprepared index start end_ (hd NoFault faults)
                 (opened ARGS unprepared index)).
    assert (P : end_ <= pos w1 <= getsize unprepared).
    { unfold w1. rewrite block_pos_read by assumption.
      pose proof (read_block_length ARGS unprepared end_ (opened ARGS unprepared index)) as R.
      unfold read_block in *. simpl pos in *. simpl offset in *. fold start in R |- *.
      destruct (readlines_reach (read_hint ARGS end_ start)
                  (skipn (Z.to_nat start) unprepared)) as [H | H].
      - unfold read_hint in H at 1. split; [lia |]. unfold getsize in *. lia.
      - rewrite H, length_skipn. unfold getsize in *. lia. }
    exists w1.
    assert (L : forall f, loop clean ARGS unprepared (S f) index start end_ faults
                     (opened ARGS unprepared index) = Some w1).
    { intros f. simpl. fold start.
      destruct (Z.ltb_spec start end_); [| lia]. fold w1.
      destruct f; simpl; destruct (Z.ltb_spec (pos w1) end_); try lia; reflexivity. }
    rewrite (L fuel), (L 0%nat). auto.
  - exists (opened ARGS unprepared index).
    assert (L : forall f, loop clean ARGS unprepared f index start end_ faults
                     (opened ARGS unprepared index) = Some (opened ARGS unprepared index)).
    { intros f. destruct f; simpl; fold start;
        destruct (Z.ltb_spec start end_); try lia; reflexivity. }
    rewrite !L. simpl. fold start. repeat split; lia.
Qed.

(** ** Byte accounting (lines 35, 43, 54-55) *)

Lemma sent_bytes_app (items : list item) (c : Counter) (n : Z) :
  sent_bytes (items ++ [Batch c n]) = sent_bytes items + n.
Proof.
  induction items as [| [| c' n'] items IH]; simpl; lia.
Qed.

Section ByteAccounting.

Variable clean : list byte -> option (list string).
Variable ARGS : args.
Variable unprepared : list byte.
Variable index : Z.

Let start := shard_start ARGS unprepared index.
Let end_ := shard_end ARGS unprepared index.

Lemma block_accounted (flt : fault) (w : worker) :
  accounted start w -> accounted start (block clean ARGS unprepared index start end_ flt w).
Proof.
  intros (Hs & Ho & Hp & Hf).
  pose proof (read_block_nonneg ARGS unprepared end_ w) as R.
  unfold accounted, block.
  destruct flt as [| | n]; [| tauto |];
    destruct (clean_lines clean _) as [lines |]; simpl; try (repeat split; auto; lia).
  destruct (flush_due end_ _ _); simpl.
  - rewrite sent_bytes_app. repeat split; try lia.
    apply Forall_app. split; [assumption |]. repeat constructor. simpl. lia.
  - repeat split; auto; lia.
Qed.

Lemma loop_accounted (fuel : nat) (faults : list fault) (w w' : worker) :
  accounted start w ->
  loop clean ARGS unprepared fuel index start end_ faults w = Some w' ->
  accounted start w'.
Proof.
  revert faults w. induction fuel as [| fuel IH]; intros faults w A; simpl;
    destruct (pos w <? end_); try discriminate;
    try (intros E; inversion E; subst; assumption).
  apply IH. now apply block_accounted.
Qed.

Lemma clean_lines_total (lines : list (list byte)) :
  (forall l, clean l <> None) -> exists out, clean_lines clean lines = Some out.
Proof.
  intros T. induction lines as [| l r [out IH]]; simpl; [now exists [] |].
  destruct (clean l) as [o |] eqn:E; [| now destruct (T l)].
  rewrite IH. now eexists.
Qed.

Lemma block_flushed (w : worker) :
  (forall l, clean l <> None) ->
  flushed end_ (block clean ARGS unprepared index start end_ NoFault w).
Proof.
  intros T. unfold flushed, block.
  destruct (clean_lines_total (kept_lines ARGS unprepared index start end_ w) T)
    as [out ->].
  destruct (flush_due end_ _ _) eqn:D; simpl; [now right |].
  left. unfold flush_due in D. apply orb_false_iff in D as [_ D]. lia.
Qed.

Lemma loop_flushed (fuel : nat) (faults : list fault) (w w' : worker) :
  (forall l, clean l <> None) -> Forall (eq NoFault) faults ->
  flushed end_ w ->
  loop clean ARGS unprepared fuel index start end_ faults w = Some w' ->
  old_pos w' = pos w' /\ counter w' = [] /\ end_ <= pos w'.
Proof.
  intros T. revert faults w. induction fuel as [| fuel IH]; intros faults w N A; simpl;
    destruct (Z.ltb_spec (pos w) end_) as [G | G]; try discriminate.
  - intros E. inversion E; subst. destruct A as [A | [A1 A2]]; [lia | auto].
  - assert (H : hd NoFault faults = NoFault) by (destruct N; simpl; auto).
    rewrite H. apply IH; [destruct N; simpl; auto | now apply block_flushed].
  - intros E. inversion E; subst. destruct A as [A | [A1 A2]]; [lia | auto].
Qed.

End ByteAccounting.

(** X3: whatever the faults, the byte counts of the items a worker has put
    on the queue are not negative and add up to [old_pos - start], the
    bytes read up to its last item, and [old_pos] never passes [pos]. *)
Theorem sent_bytes_account_for_reads (clean : list byte -> option (list string))
  (ARGS : args) (unprepared : list byte) (index : Z) (fuel : nat)
  (opens : bool) (faults : list fault) (w : worker) :
  count_words clean ARGS unprepared fuel opens faults index = Some (Returned w) ->
  sent_bytes (counters w) = old_pos w - shard_start ARGS unprepared index
  /\ shard_start ARGS unprepared index <= old_pos w <= pos w
  /\ Forall counted_bytes (counters w).
Proof.
  unfold count_words.
  destruct (ARGS_workers ARGS =? 0); [discriminate |].
  destruct opens; simpl; [| discriminate].
  destruct (loop _ _ _ _ _ _ _ _ _) as [w0 |] eqn:E; [| discriminate].
  intros H. inversion H; subst.
  apply loop_accounted in E.
  - destruct E as (Hs & Ho & _ & Hf). repeat split; try assumption; lia.
  - unfold accounted. simpl. repeat split; try lia. constructor.
Qed.

(** X4: when nothing raises (no fault, and the cleaning of every line
    succeeds), a worker that returns holds no unsent counts: its table is
    empty, and the byte counts it has sent add up to all it has read,
    [pos - start], which is at least the size of its shard. *)
Theorem worker_sends_all_it_counted (clean : list byte -> option (list string))
  (ARGS : args) (unprepared : list byte) (index : Z) (fuel : nat)
  (faults : list fault) (w : worker) :
  (forall l, clean l <> None) ->
  Forall (eq NoFault) faults ->
  1 <= ARGS_workers ARGS ->
  count_words clean ARGS unprepared fuel true faults index = Some (Returned w) ->
  counter w = []
  /\ sent_bytes (counters w) = pos w - shard_start ARGS unprepared index
  /\ block_size ARGS unprepared <= sent_bytes (counters w).
Proof.
  intros T N W. unfold count_words.
  destruct (Z.eqb_spec (ARGS_workers ARGS) 0); [lia |]. simpl.
  destruct (loop _ _ _ _ _ _ _ _ _) as [w0 |] eqn:E; [| discriminate].
  intros H. inversion H; subst.
  pose proof E as E'.
  apply loop_accounted in E; [| unfold accounted; simpl; repeat split; try lia; constructor].
  apply loop_flushed in E'; try assumption.
  - destruct E as (Hs & _). destruct E' as (Ho & Hc & He).
    unfold shard_end in He. repeat split; [assumption | lia | lia].
  - unfold flushed. simpl.
    destruct (Z.lt_ge_cases (shard_start ARGS unprepared index)
                (shard_end ARGS unprepared index)); [now left | right].
    repeat split.
Qed.

(** ** The table of the aggregator (lines 62-75) *)

Lemma wf_Counter_of (elems : list key) : wf (Counter_of elems).
Proof.
  unfold Counter_of.
  assert (H : forall init, wf init ->
                wf (fold_left (fun c e => add_count c e 1) elems init)).
  { induction elems as [| e l IH]; simpl; intros init W; [assumption |].
    apply IH. now apply wf_add_count. }
  apply H, wf_nil.
Qed.

Lemma positive_Counter_of (elems : list key) : positive (Counter_of elems).
Proof.
  unfold Counter_of.
  assert (H : forall init, positive init ->
                positive (fold_left (fun c e => add_count c e 1) elems init)).
  { induction elems as [| e l IH]; simpl; intros init W; [assumption |].
    apply IH. apply positive_add_count; [assumption | lia]. }
  apply H. constructor.
Qed.

Lemma merge_wf_positive (ARGS : args) (overall counter : Counter) :
  wf overall -> wf (merge ARGS overall counter) /\ positive (merge ARGS overall counter).
Proof.
  intros W. unfold merge. destruct (prune_due ARGS _).
  - split; [apply wf_Counter_of | apply positive_Counter_of].
  - split; [now apply wf_iadd | apply positive_iadd].
Qed.

Lemma aggregate_loop_inv (ARGS : args) (items : list item) (overall t : Counter) :
  wf overall -> positive overall ->
  aggregate_loop ARGS items overall = Some t ->
  wf t /\ positive t.
Proof.
  revert overall. induction items as [| [| c n] items IH]; simpl; intros overall W P E.
  - discriminate.
  - inversion E; subst. now split.
  - destruct (merge_wf_positive ARGS overall c W) as [W' P']. now apply (IH _ W' P').
Qed.

Lemma aggregate_loop_size (ARGS : args) (items : list item) (overall t : Counter) :
  1 <= ARGS_prune_factor ARGS -> 0 <= ARGS_vocabulary_size ARGS ->
  len_keys overall <= ARGS_prune_factor ARGS * ARGS_vocabulary_size ARGS ->
  aggregate_loop ARGS items overall = Some t ->
  len_keys t <= ARGS_prune_factor ARGS * ARGS_vocabulary_size ARGS.
Proof.
  intros P V. revert overall.
  induction items as [| [| c n] items IH]; simpl; intros overall L E.
  - discriminate.
  - inversion E; subst. assumption.
  - apply (IH (merge ARGS overall c)); [| assumption]. now apply merge_size_bound.
Qed.

(** X5: whatever items arrive, and whether or not prunes happen, the table
    the aggregator holds at [STOP_TOKEN] is a dict with positive counts,
    and the vocabulary written has no repeated entry and at most
    [vocabulary_size] entries.  With a prune factor of at least 1 and a
    vocabulary size that is not negative the table has at most
    [prune_factor * vocabulary_size] keys. *)
Theorem aggregator_table_bounded (ARGS : args) (items : list item) (t : Counter) :
  aggregate_loop ARGS items [] = Some t ->
  wf t /\ positive t
  /\ NoDup (vocabulary ARGS t)
  /\ Z.of_nat (List.length (vocabulary ARGS t)) <= Z.max 0 (ARGS_vocabulary_size ARGS)
  /\ (forall k, In k (vocabulary ARGS t) -> 0 < getitem t k)
  /\ (1 <= ARGS_prune_factor ARGS -> 0 <= ARGS_vocabulary_size ARGS ->
      len_keys t <= ARGS_prune_factor ARGS * ARGS_vocabulary_size ARGS).
Proof.
  intros E.
  destruct (aggregate_loop_inv ARGS items [] t wf_nil ltac:(constructor) E) as [W P].
  destruct (most_common_top (ARGS_vocabulary_size ARGS) t W P) as (N & Pk & _ & _ & _).
  split; [exact W |]. split; [exact P |]. split; [exact N |]. split.
  { unfold vocabulary, most_common. rewrite length_map.
    pose proof (firstn_le_length (Z.to_nat (ARGS_vocabulary_size ARGS)) (sort_desc t)).
    lia. }
  split; [exact Pk |].
  intros Pf V. apply (aggregate_loop_size ARGS items [] t Pf V); [| exact E].
  unfold len_keys. simpl. nia.
Qed.

Lemma add_count_notin (c : Counter) (k : key) (n : Z) :
  ~ In k (keys c) -> add_count c k n = (c ++ [(k, 0 + n)])%list.
Proof.
  induction c as [| [k0 m] c IH]; simpl; intros N; [reflexivity |].
  destruct (key_eqb_spec k k0) as [-> | D]; [exfalso; apply N; now left |].
  rewrite IH; [reflexivity |]. intros I. apply N. now right.
Qed.

Lemma Counter_of_nodup (elems : list key) (init : Counter) :
  NoDup elems -> (forall k, In k elems -> ~ In k (keys init)) ->
  fold_left (fun c e => add_count c e 1) elems init
  = (init ++ map (fun k => (k, 1)) elems)%list.
Proof.
  revert init. induction elems as [| e l IH]; simpl; intros init N D.
  - now rewrite app_nil_r.
  - inversion N as [| ? ? Ne Nl]; subst.
    rewrite add_count_notin by (apply D; now left).
    rewrite IH; [now rewrite <- app_assoc | assumption |].
    intros k I C. unfold keys in C. rewrite map_app in C.
    apply in_app_or in C as [C | [C | []]].
    + apply (D k); [now right | exact C].
    + simpl in C. subst. contradiction.
Qed.

(** X6: line 75 replaces the table by a dict whose keys are the
    [(key, count)] tuples returned by [most_common], each with count 1, in
    the same order; no word is a key of the table after a prune. *)
Theorem prune_yields_tuple_keys (ARGS : args) (overall : Counter) :
  wf overall ->
  prune ARGS overall
  = map (fun kc => (Tup (fst kc) (snd kc), 1))
        (most_common (ARGS_vocabulary_size ARGS) overall)
  /\ forall w, getitem (prune ARGS overall) (Word w) = 0.
Proof.
  intros W.
  assert (E : prune ARGS overall
              = map (fun kc => (Tup (fst kc) (snd kc), 1))
                    (most_common (ARGS_vocabulary_size ARGS) overall)).
  { unfold prune, Counter_of. rewrite Counter_of_nodup.
    - simpl. now rewrite map_map.
    - unfold most_common.
      assert (N : NoDup (map fst (sort_desc overall))).
      { eapply Permutation_NoDup; [| exact W].
        apply Permutation_map. symmetry. apply sort_desc_perm. }
      rewrite <- (firstn_skipn (Z.to_nat (ARGS_vocabulary_size ARGS)) (sort_desc overall)),
        map_app in N.
      apply NoDup_app_remove_r in N.
      induction (firstn (Z.to_nat (ARGS_vocabulary_size ARGS)) (sort_desc overall))
        as [| [k c] l IH]; simpl; [constructor |].
      inversion N as [| ? ? Nk Nl]; subst. constructor; [| now apply IH].
      intros I. apply Nk. apply in_map_iff in I as [[k' c'] [Eq I]].
      inversion Eq; subst. change k with (fst (k, c)). now apply in_map.
    - intros k _ []. }
  split; [exact E |].
  intros w. apply getitem_notin. intros I.
  apply prune_keys_are_tuples in I as (k' & c & Eq). discriminate.
Qed.

(** ** Words and whitespace ([str.split], lines 48, 68 and 190-191) *)

Lemma append_nil_r (s : string) : (s ++ EmptyString)%string = s.
Proof. induction s as [| a s IH]; simpl; [reflexivity | now rewrite IH]. Qed.

Lemma append_assoc (a b c : string) : ((a ++ b) ++ c)%string = (a ++ (b ++ c))%string.
Proof. induction a as [| x a IH]; simpl; [reflexivity | now rewrite IH]. Qed.

Lemma split_from_space (word : string) (a : ascii) (s : string) :
  isspace a = true ->
  split_from word (String a s) = (flush_word word ++ split_from EmptyString s)%list.
Proof. intros H. simpl. rewrite H. destruct word; reflexivity. Qed.

Lemma split_from_nil (word : string) : split_from word EmptyString = flush_word word.
Proof. destruct word; reflexivity. Qed.

Lemma split_from_nospace (u word s : string) :
  nospace u = true ->
  split_from word (u ++ s) = split_from (word ++ u) s.
Proof.
  revert word. induction u as [| a u IH]; simpl; intros word H.
  - now rewrite append_nil_r.
  - apply andb_true_iff in H as [H1 H2]. apply negb_true_iff in H1.
    rewrite H1, IH by assumption. now rewrite append_assoc.
Qed.

Lemma nospace_app (a b : string) :
  nospace (a ++ b) = nospace a && nospace b.
Proof.
  induction a as [| x a IH]; simpl; [reflexivity |].
  rewrite IH. now rewrite andb_assoc.
Qed.

Lemma append_not_empty (a : string) (x : ascii) :
  (a ++ String x EmptyString)%string <> EmptyString.
Proof. destruct a; discriminate. Qed.

Lemma flush_word_token (word : string) :
  nospace word = true -> Forall is_token (flush_word word).
Proof.
  intros H. destruct word; simpl; constructor; [| constructor].
  split; [discriminate | exact H].
Qed.

(** Every word returned by [split] is a token. *)
Lemma split_from_tokens (s word : string) :
  nospace word = true -> Forall is_token (split_from word s).
Proof.
  revert word. induction s as [| a s IH]; intros word H.
  - rewrite split_from_nil. now apply flush_word_token.
  - destruct (isspace a) eqn:E.
    + rewrite split_from_space by assumption.
      apply Forall_app. split; [now apply flush_word_token | now apply IH].
    + simpl. rewrite E. apply IH. rewrite nospace_app, H. simpl. now rewrite E.
Qed.

Lemma split_tokens (line : string) : Forall is_token (split line).
Proof. now apply split_from_tokens. Qed.

(** Joining tokens with newlines and splitting gives the tokens back. *)
Lemma split_concat_tokens (ws : list string) :
  Forall is_token ws -> split (String.concat nl ws) = ws.
Proof.
  unfold split. induction 1 as [| w ws [Hn Hs] F IH]; [reflexivity |].
  destruct ws as [| w' ws'].
  - simpl. rewrite <- (append_nil_r w) at 1.
    rewrite split_from_nospace by assumption.
    rewrite split_from_nil. simpl. destruct w; [contradiction | reflexivity].
  - change (String.concat nl (w :: w' :: ws'))
      with (w ++ (nl ++ String.concat nl (w' :: ws')))%string.
    rewrite split_from_nospace by assumption.
    set (rest := String.concat nl (w' :: ws')) in *.
    change (nl ++ rest)%string with (String lf rest).
    rewrite split_from_space by reflexivity.
    rewrite IH. simpl. destruct w; [contradiction | reflexivity].
Qed.

Lemma text_lines_nil (s : string) : text_lines s = [] -> s = EmptyString.
Proof.
  destruct s as [| a s]; simpl; [reflexivity |].
  destruct (Ascii.eqb a lf); [discriminate |].
  destruct (text_lines s); discriminate.
Qed.

(** Splitting line by line gives the words of the whole text. *)
Lemma split_text_lines (s word : string) :
  split_from word s
  = match text_lines s with
    | [] => flush_word word
    | line :: lines => (split_from word line ++ flat_map split lines)%list
    end.
Proof.
  revert word. induction s as [| a s IH]; intros word.
  - apply split_from_nil.
  - simpl text_lines. destruct (Ascii.eqb_spec a lf) as [-> | N].
    + rewrite !split_from_space by reflexivity.
      rewrite split_from_nil, app_nil_r. f_equal.
      rewrite (IH EmptyString). destruct (text_lines s); reflexivity.
    + destruct (text_lines s) as [| line lines] eqn:E.
      * apply text_lines_nil in E. subst. now rewrite app_nil_r.
      * destruct (isspace a) eqn:Sp.
        -- rewrite !split_from_space by assumption.
           rewrite (IH EmptyString). now rewrite app_assoc.
        -- simpl. rewrite Sp. apply IH.
Qed.

Lemma flat_split_text_lines (s : string) : flat_map split (text_lines s) = split s.
Proof.
  unfold split at 2. rewrite split_text_lines.
  destruct (text_lines s); reflexivity.
Qed.

Lemma split_universal_newlines (s word : string) :
  split_from word (universal_newlines s) = split_from word s.
Proof.
  revert word. induction s as [| a s IH]; intros word; [reflexivity |].
  simpl universal_newlines. destruct (Ascii.eqb_spec a cr) as [-> | N].
  - destruct s as [| b s'].
    + now rewrite !split_from_space by reflexivity.
    + destruct (Ascii.eqb_spec b lf) as [-> | N'].
      * rewrite (split_from_space word lf) by reflexivity.
        rewrite (split_from_space word cr) by reflexivity.
        f_equal.
        specialize (IH EmptyString). simpl universal_newlines in IH.
        rewrite !(split_from_space EmptyString lf) in IH by reflexivity.
        rewrite (split_from_space EmptyString lf) by reflexivity.
        change (flush_word EmptyString) with (@nil string) in *.
        exact IH.
      * rewrite (split_from_space word lf) by reflexivity.
        rewrite (split_from_space word cr) by reflexivity.
        f_equal. apply IH.
  - destruct (isspace a) eqn:Sp.
    + rewrite !split_from_space by assumption. f_equal. apply IH.
    + simpl. rewrite Sp. apply IH.
Qed.

(** X7: the scorer stage reads the vocabulary file line by line and word by
    word: it meets the whitespace-separated words of the whole text, in
    order.  Read back this way, the file written at line 68 for a table
    whose keys are words without whitespace gives the vocabulary that was
    written. *)
Theorem vocabulary_read_back (ARGS : args) (str_tuple : key -> Z -> string)
  (t : Counter) :
  (forall k, In k (keys t) -> exists w, k = Word w /\ is_token w) ->
  (forall text, read_vocabulary text = split text)
  /\ map Word (read_vocabulary (vocabulary_text ARGS str_tuple t)) = vocabulary ARGS t.
Proof.
  intros K.
  assert (R : forall text, read_vocabulary text = split text).
  { intros text. unfold read_vocabulary. rewrite flat_split_text_lines.
    apply split_universal_newlines. }
  split; [exact R |].
  rewrite R. unfold vocabulary_text.
  assert (V : Forall (fun k => exists w, k = Word w /\ is_token w) (vocabulary ARGS t)).
  { apply Forall_forall. intros k I. apply K.
    unfold vocabulary, most_common in I.
    apply in_map_iff in I as [[k' c] [<- I]]. apply in_firstn in I.
    apply (Permutation_in _ (sort_desc_perm t)) in I. now apply keys_in in I. }
  assert (E : exists ws, vocabulary ARGS t = map Word ws /\ Forall is_token ws).
  { clear - V. induction V as [| k' l' (w & -> & T) _ (ws & -> & F)].
    - exists []. split; [reflexivity | constructor].
    - exists (w :: ws). split; [reflexivity | now constructor]. }
  destruct E as (ws & -> & F).
  rewrite str_key_words, split_concat_tokens by assumption. reflexivity.
Qed.

(** X8: in [auto] mode the utf-8 alphabet is chosen exactly when no word
    of the vocabulary file has more than one character, so it is chosen
    for an empty vocabulary; the two other modes do not look at the file. *)
Theorem use_utf8_decision (text : string) :
  (use_utf8 auto text = true <->
   forall word, In word (split text) -> (String.length word <= 1)%nat)
  /\ use_utf8 auto EmptyString = true
  /\ use_utf8 utf8 text = true
  /\ use_utf8 specific text = false.
Proof.
  split; [| repeat split].
  unfold use_utf8, vocab_looks_char_based, read_vocabulary.
  rewrite flat_split_text_lines.
  change (split (universal_newlines text)) with (split_from EmptyString (universal_newlines text)).
  rewrite split_universal_newlines. fold (split text).
  rewrite forallb_forall. split; intros H w I; specialize (H w I).
  - now apply Nat.leb_le.
  - now apply Nat.leb_le.
Qed.

(** ** Counts and written text (lines 45-56) *)

Lemma split_from_app_space (l word : string) (a : ascii) (s : string) :
  isspace a = true ->
  split_from word (l ++ String a s) = (split_from word l ++ split s)%list.
Proof.
  intros Sp. revert word. induction l as [| b l IH]; intros word.
  - simpl append. rewrite split_from_space, split_from_nil by assumption. reflexivity.
  - destruct (isspace b) eqn:E.
    + simpl append. rewrite !split_from_space by assumption.
      rewrite IH. now rewrite app_assoc.
    + simpl. rewrite E. apply IH.
Qed.

Lemma closed_empty : closed_text EmptyString.
Proof. intros s. reflexivity. Qed.

Lemma closed_line (f l : string) :
  closed_text f ->
  closed_text (f ++ (l ++ nl))
  /\ split (f ++ (l ++ nl)) = (split f ++ split l)%list.
Proof.
  intros C.
  assert (L : forall s, split ((l ++ nl) ++ s) = (split l ++ split s)%list).
  { intros s. rewrite append_assoc. unfold split at 1.
    change (nl ++ s)%string with (String lf s).
    now rewrite split_from_app_space by reflexivity. }
  assert (E : split (f ++ (l ++ nl)) = (split f ++ split l)%list).
  { rewrite C. rewrite <- (append_nil_r (l ++ nl)), L. simpl. now rewrite app_nil_r. }
  split; [| exact E].
  intros s. rewrite append_assoc, C, L, E. now rewrite app_assoc.
Qed.

Lemma writelines_split (lines : list string) (f : string) :
  closed_text f ->
  closed_text (writelines f lines)
  /\ split (writelines f lines) = (split f ++ flat_map split lines)%list.
Proof.
  unfold writelines. revert f. induction lines as [| l r IH]; simpl; intros f C.
  - split; [assumption | now rewrite app_nil_r].
  - destruct (closed_line f l C) as [C' E].
    destruct (IH _ C') as [C'' E'].
    split; [assumption |]. rewrite E', E. now rewrite <- app_assoc.
Qed.

Lemma getitem_count_list (words : list string) (c : Counter) (x : string) :
  getitem (count_list c words) (Word x)
  = getitem c (Word x) + Z.of_nat (count_occ string_dec words x).
Proof.
  unfold count_list. revert c. induction words as [| y r IH]; simpl; intros c; [lia |].
  rewrite IH, getitem_add_count. simpl key_eqb.
  destruct (string_dec y x) as [-> | N].
  - rewrite String.eqb_refl. lia.
  - destruct (String.eqb_spec x y) as [E | _]; [congruence | lia].
Qed.

Lemma sent_counters_app (items : list item) (c : Counter) (n : Z) :
  sent_counters (items ++ [Batch c n]) = (sent_counters items ++ [c])%list.
Proof.
  induction items as [| [| c' n'] items IH]; simpl; [reflexivity | assumption |].
  now rewrite IH.
Qed.

Lemma reachable_counts (clean : list byte -> option (list string)) (ARGS : args)
  (unprepared : list byte) (index : Z) (w : worker) :
  reachable clean ARGS unprepared index w ->
  closed_text (partial_file w) /\ counts_match_text w.
Proof.
  induction 1 as [| w flt R [C M] G F].
  - split; [apply closed_empty | intros x; reflexivity].
  - unfold block. destruct flt as [| | n]; [| tauto | now destruct (F n)].
    destruct (clean_lines clean _) as [lines |]; [| simpl; tauto].
    destruct (writelines_split lines (partial_file w) C) as [C' E].
    assert (K : forall x,
               getitem (count_lines (counter w) lines) (Word x)
               + total (sent_counters (counters w)) (Word x)
               = Z.of_nat (count_occ string_dec
                             (split (writelines (partial_file w) lines)) x)).
    { intros x. rewrite count_lines_flat, getitem_count_list, E, count_occ_app.
      specialize (M x). lia. }
    destruct (flush_due _ _ _); simpl; (split; [assumption |]); intros x; simpl.
    + rewrite sent_counters_app, total_app. simpl. specialize (K x). lia.
    + apply K.
Qed.

(** X9: as long as no write raises, the counts a worker holds and the
    counts it has sent add up, for every word, to the number of
    occurrences of that word in the text written to its partial file;
    a failed read or a failed cleaning changes neither side. *)
Theorem counts_are_words_of_partial_file (clean : list byte -> option (list string))
  (ARGS : args) (unprepared : list byte) (index : Z) (fuel : nat)
  (faults : list fault) (w : worker) (x : string) :
  writes_succeed faults ->
  count_words clean ARGS unprepared fuel true faults index = Some (Returned w) ->
  getitem (counter w) (Word x) + total (sent_counters (counters w)) (Word x)
  = Z.of_nat (count_occ string_dec (split (partial_file w)) x).
Proof.
  intros F. unfold count_words.
  destruct (ARGS_workers ARGS =? 0); [discriminate |]. simpl.
  destruct (loop _ _ _ _ _ _ _ _ _) as [w0 |] eqn:E; [| discriminate].
  intros H. inversion H; subst.
  apply (reachable_counts clean ARGS unprepared index).
  eapply loop_reachable; [apply reach_opened | exact F | exact E].
Qed.

(** ** The stages of [main] (lines 99-226) *)

(** X10: [main] starts the stages in the order of the source, from the
    first one whose output file is missing, or from the preparation when
    regeneration is forced or the download or the unzipping reports new
    data; every later stage is then started too, up to the first that
    fails, and [main] returns exactly when none of them fails. *)
Theorem main_stages_cascade (succeeds : stage -> bool)
  (force_download force_generate : bool)
  (maybe_download maybe_ungzip : bool -> bool) (dir : outputs) :
  let redo := maybe_ungzip (maybe_download force_download) || force_generate in
  let from := if redo then 0%nat else first_missing dir in
  main_stages succeeds force_download force_generate maybe_download maybe_ungzip dir
  = (until_failure succeeds (skipn from all_stages),
     forallb succeeds (skipn from all_stages)).
Proof.
  unfold main_stages, stage_block, first_missing, all_stages.
  destruct dir as [p v u f l s]. simpl.
  destruct (maybe_ungzip (maybe_download force_download) || force_generate);
    destruct p, v, u, f, l, s; simpl;
    repeat match goal with
      | |- context [succeeds ?st] => destruct (succeeds st) eqn:?; simpl
      end;
    reflexivity.
Qed.

(** ** Partial files (lines 24-25) *)

Lemma append_inj_l (a x y : string) : (a ++ x)%string = (a ++ y)%string -> x = y.
Proof.
  induction a as [| c a IH]; simpl; intros H; [assumption |].
  inversion H. now apply IH.
Qed.

Lemma to_int_not_nil (n : Z) :
  Z.to_int n <> Decimal.Pos Decimal.Nil /\ Z.to_int n <> Decimal.Neg Decimal.Nil.
Proof.
  split; intros H; pose proof (DecimalZ.of_to n) as E; rewrite H in E;
    simpl in E; subst; discriminate.
Qed.

Lemma str_int_inj (n m : Z) : str_int n = str_int m -> n = m.
Proof.
  unfold str_int. intros H.
  destruct (to_int_not_nil n) as [N1 N2]. destruct (to_int_not_nil m) as [M1 M2].
  pose proof (DecimalString.NilZero.isi (Z.to_int n) N1 N2) as En.
  pose proof (DecimalString.NilZero.isi (Z.to_int m) M1 M2) as Em.
  rewrite H in En. rewrite En in Em. inversion Em.
  now apply DecimalZ.to_int_inj.
Qed.

(** X11: two workers never share a partial file: the path of a partial
    file determines its index, whatever the model directory. *)
Theorem get_partial_path_injective (model_dir : string) (i j : Z) :
  get_partial_path model_dir i = get_partial_path model_dir j -> i = j.
Proof.
  unfold get_partial_path, path_join. simpl startswith_sep. cbv iota.
  destruct (match model_dir with EmptyString => true | _ => endswith_sep model_dir end);
    intros H; apply str_int_inj; apply append_inj_l in H.
  - now apply (append_inj_l "prepared.txt.partial") in H.
  - injection H as H. exact H.
Qed.

(** ** The utf-8 alphabet (lines 78-85) *)

(** X12: [get_serialized_utf8_alphabet] never raises; it returns 1277
    bytes: the count 255 on two bytes, then for every label [i] from 0 to
    254 a record of five bytes: [i] and the length 1, each on two bytes
    with the least significant first, and the byte of value [i + 1].  No
    label stands for the byte 0. *)
Theorem serialized_utf8_alphabet_layout :
  exists out,
    get_serialized_utf8_alphabet = Some out
    /\ List.length out = 1277%nat
    /\ firstn 2 out = [xff; x00]
    /\ forall i, (i < 255)%nat ->
         firstn 5 (skipn (2 + 5 * i) out)
         = [byte_of_Z (Z.of_nat i); x00; x01; x00; byte_of_Z (Z.of_nat i + 1)]
         /\ byte_of_Z (Z.of_nat i + 1) <> x00.
Proof.
  destruct get_serialized_utf8_alphabet as [out |] eqn:E; [| vm_compute in E; discriminate].
  exists out. split; [reflexivity |].
  assert (C : (List.length out =? 1277)%nat
              && forallb (fun i =>
                   match firstn 5 (skipn (2 + 5 * i) out) with
                   | [a; b; c; d; e] =>
                       Byte.eqb a (byte_of_Z (Z.of_nat i)) && Byte.eqb b x00
                       && Byte.eqb c x01 && Byte.eqb d x00
                       && Byte.eqb e (byte_of_Z (Z.of_nat i + 1))
                       && negb (Byte.eqb e x00)
                   | _ => false
                   end) (seq 0 255)
              && match firstn 2 out with
                 | [a; b] => Byte.eqb a xff && Byte.eqb b x00
                 | _ => false
                 end = true).
  { vm_compute in E. inversion E. vm_compute. reflexivity. }
  apply andb_true_iff in C as [C H2]. apply andb_true_iff in C as [L F].
  split; [now apply Nat.eqb_eq |]. split.
  - destruct (firstn 2 out) as [| a [| b [| ? ?]]]; try discriminate.
    apply andb_true_iff in H2 as [A B].
    apply Byte.byte_dec_bl in A, B. now subst.
  - intros i Hi. rewrite forallb_forall in F.
    specialize (F i ltac:(apply in_seq; lia)).
    destruct (firstn 5 (skipn (2 + 5 * i) out)) as [| a [| b [| c [| d [| e [| ? ?]]]]]];
      try discriminate.
    repeat (apply andb_true_iff in F as [F ?]).
    apply Byte.byte_dec_bl in F.
    repeat match goal with
           | H : Byte.eqb _ _ = true |- _ => apply Byte.byte_dec_bl in H
           end.
    subst. split; [reflexivity |].
    match goal with H : negb _ = true |- _ => apply negb_true_iff in H; rename H into Hz end.
    intros Z0. rewrite Z0 in Hz. discriminate.
Qed.

(** ** An empty input (lines 28-37 and 113-129) *)

Lemma count_words_empty_range (clean : list byte -> option (list string))
  (ARGS : args) (unprepared : list byte) (fuel : nat) (faults : list fault)
  (index : Z) :
  ARGS_workers ARGS <> 0 ->
  shard_end ARGS unprepared index <= shard_start ARGS unprepared index ->
  count_words clean ARGS unprepared fuel true faults index
  = Some (Returned (opened ARGS unprepared index)).
Proof.
  intros W E. unfold count_words.
  destruct (Z.eqb_spec (ARGS_workers ARGS) 0); [contradiction |]. simpl.
  destruct fuel; simpl;
    destruct (Z.ltb_spec (shard_start ARGS unprepared index)
                (shard_end ARGS unprepared index)); try lia; reflexivity.
Qed.

Lemma block_size_empty (ARGS : args) : block_size ARGS [] = 0.
Proof.
  unfold block_size, getsize, ceil_div.
  change (- Z.of_nat (List.length (@nil byte))) with 0.
  rewrite Zdiv_0_l. reflexivity.
Qed.

Lemma concat_empty_strings (l : list string) :
  Forall (eq EmptyString) l -> String.concat EmptyString l = EmptyString.
Proof.
  induction 1 as [| x l <- F IH]; [reflexivity |].
  simpl. destruct l; [reflexivity |]. exact IH.
Qed.

(** X13: on an empty input file, with any number of workers from 1 on,
    [main] comes to the end of the preparation after no read at all: the
    vocabulary and the prepared corpus are both empty. *)
Theorem main_prepare_empty_input (clean : list byte -> option (list string))
  (str_tuple : key -> Z -> string) (ARGS : args) (opens : Z -> bool)
  (faults : Z -> list fault) (fuel : nat) :
  1 <= ARGS_workers ARGS ->
  (forall index, opens index = true) ->
  main_prepare clean str_tuple ARGS [] opens faults fuel
  = Some {| vocabulary_txt := EmptyString; prepared_txt := Some EmptyString |}.
Proof.
  intros W O. unfold main_prepare.
  assert (R : forall l,
             exists os,
               join_all (map (fun index => count_words clean ARGS [] fuel (opens index)
                                             (faults index) index) l) = Some os
               /\ flat_map put_items os = []
               /\ exists ps, partials os = Some ps /\ Forall (eq EmptyString) ps).
  { induction l as [| i l (os & J & P & ps & Q & F)]; simpl.
    - exists []. repeat split. exists []. split; [reflexivity | constructor].
    - rewrite O, count_words_empty_range, J.
      + exists (Returned (opened ARGS [] i) :: os). simpl. rewrite Q.
        repeat split; [assumption |]. eexists. split; [reflexivity |].
        constructor; [reflexivity | assumption].
      + lia.
      + unfold shard_end. rewrite block_size_empty. lia. }
  destruct (R (range (ARGS_workers ARGS))) as (os & J & P & ps & Q & F).
  rewrite J, P, Q. simpl.
  unfold vocabulary_text, vocabulary, most_common. simpl sort_desc.
  rewrite firstn_nil. simpl. unfold maybe_join. now rewrite concat_empty_strings.
Qed.

(** ** Lines and byte positions *)

Lemma byte_eqb_newline (b : byte) : b <> newline -> Byte.eqb b newline = false.
Proof.
  intros N. destruct (Byte.eqb b newline) eqn:E; [| reflexivity].
  apply Byte.byte_dec_bl in E. contradiction.
Qed.

Lemma splitlines_line (l d : list byte) :
  Forall (fun b => b <> newline) l ->
  splitlines (l ++ newline :: d) = (l ++ [newline]) :: splitlines d.
Proof.
  induction 1 as [| b l N F IH]; simpl.
  - reflexivity.
  - rewrite byte_eqb_newline by assumption. now rewrite IH.
Qed.

Lemma splitlines_last (l : list byte) :
  l <> [] -> Forall (fun b => b <> newline) l -> splitlines l = [l].
Proof.
  intros Ne F. induction F as [| b l N F IH]; [contradiction |].
  simpl. rewrite byte_eqb_newline by assumption.
  destruct l as [| c l]; [reflexivity |].
  rewrite IH by discriminate. reflexivity.
Qed.

Lemma splitlines_structured (data : list byte) : line_structured (splitlines data).
Proof.
  induction data as [| b rest IH]; simpl; [constructor |].
  destruct (Byte.eqb b newline) eqn:E.
  - apply Byte.byte_dec_bl in E. subst.
    apply (ls_cons [] (splitlines rest)); [constructor | assumption].
  - assert (N : b <> newline).
    { intros ->. discriminate. }
    inversion IH as [Hn | l Ne F Hl | l ls F S Hl].
    + apply ls_last; [discriminate | now repeat constructor].
    + apply ls_last; [discriminate | now constructor].
    + apply (ls_cons (b :: l) ls); [now constructor | assumption].
Qed.

Lemma concat_structured (lines : list (list byte)) :
  line_structured lines -> splitlines (List.concat lines) = lines.
Proof.
  induction 1 as [| l Ne F | l rest F S IH]; simpl.
  - reflexivity.
  - rewrite app_nil_r. now apply splitlines_last.
  - rewrite <- app_assoc. simpl. rewrite splitlines_line by assumption.
    now rewrite IH.
Qed.

Lemma Forall_skipn {A : Type} (P : A -> Prop) (n : nat) (l : list A) :
  Forall P l -> Forall P (skipn n l).
Proof.
  intros F. apply Forall_forall. intros x I. rewrite Forall_forall in F.
  apply F. now apply (in_skipn n l).
Qed.

Lemma skipn_nonempty {A : Type} (n : nat) (l : list A) :
  (n < List.length l)%nat -> skipn n l <> [].
Proof.
  intros L E. pose proof (length_skipn n l) as H. rewrite E in H. simpl in H. lia.
Qed.

(** Reading from byte [s] of a file gives the rest of the line that holds
    byte [s], then the lines that follow. *)
Lemma splitlines_skipn (s : nat) (lines : list (list byte)) :
  line_structured lines ->
  splitlines (skipn s (List.concat lines)) = from_byte s lines.
Proof.
  intros S. revert s. induction S as [| l Ne F | l rest F S IH]; intros s; simpl.
  - now rewrite skipn_nil.
  - rewrite app_nil_r. destruct (Nat.ltb_spec s (List.length l)) as [L | L].
    + apply splitlines_last; [now apply skipn_nonempty | now apply Forall_skipn].
    + rewrite skipn_all2 by lia. reflexivity.
  - rewrite length_app. simpl List.length.
    destruct (Nat.ltb_spec s (List.length l + 1)) as [L | L].
    + rewrite skipn_app.
      replace (s - List.length (l ++ [newline]))%nat with 0%nat
        by (rewrite length_app; simpl; lia).
      simpl skipn at 2. rewrite skipn_app.
      replace (s - List.length l)%nat with 0%nat by lia.
      simpl skipn at 2. rewrite <- app_assoc. simpl app.
      rewrite splitlines_line by now apply Forall_skipn.
      now rewrite concat_structured.
    + rewrite skipn_app, (skipn_all2 (l ++ [newline]))
        by (rewrite length_app; simpl; lia).
      simpl app. rewrite length_app. simpl List.length. apply IH.
Qed.

Lemma starts_bounds (lines : list (list byte)) (base p : Z) (l : list byte) :
  In (p, l) (starts base lines) -> base <= p <= base + total_length lines.
Proof.
  revert base. induction lines as [| x r IH]; simpl; intros base I; [contradiction |].
  rewrite total_length_cons. pose proof (total_length_nonneg r).
  destruct I as [E | I].
  - inversion E; subst. lia.
  - apply IH in I. lia.
Qed.


Lemma filter_none {A : Type} (f : A -> bool) (l : list A) :
  (forall x, In x l -> f x = false) -> filter f l = [].
Proof.
  induction l as [| x l IH]; simpl; intros H; [reflexivity |].
  rewrite (H x) by now left. apply IH. intros y I. apply H. now right.
Qed.

Lemma filter_all {A : Type} (f : A -> bool) (l : list A) :
  (forall x, In x l -> f x = true) -> filter f l = l.
Proof.
  induction l as [| x l IH]; simpl; intros H; [reflexivity |].
  rewrite (H x) by now left. f_equal. apply IH. intros y I. apply H. now right.
Qed.

(** [readlines] with a hint returns the lines that start at an offset of
    at most the hint. *)
Lemma take_hint_starts (hint : Z) (lines : list (list byte)) (c n : Z) :
  n <= hint ->
  take_hint hint n lines
  = map snd (filter (fun pl => fst pl <=? c + hint) (starts (c + n) lines)).
Proof.
  revert n. induction lines as [| l r IH]; simpl; intros n H; [reflexivity |].
  destruct (Z.leb_spec (c + n) (c + hint)) as [_ | C]; [| lia]. simpl. f_equal.
  destruct (Z.gtb_spec (Z.of_nat (List.length l)) (hint - n)) as [G | G].
  - rewrite filter_none; [reflexivity |].
    intros [p x] I. apply starts_bounds in I. simpl. lia.
  - rewrite (IH (n + Z.of_nat (List.length l))) by lia.
    now rewrite Z.add_assoc.
Qed.

(** The lines read after the first one, from byte [s], are the lines of
    the file that start after byte [s]. *)
Lemma from_byte_starts (lines : list (list byte)) (s : nat) (base : Z) :
  tl (starts (base + Z.of_nat s) (from_byte s lines))
  = filter (fun pl => base + Z.of_nat s <? fst pl) (starts base lines).
Proof.
  revert s base. induction lines as [| l r IH]; intros s base; simpl; [reflexivity |].
  destruct (Z.ltb_spec (base + Z.of_nat s) base) as [C | _]; [lia |].
  destruct (Nat.ltb_spec s (List.length l)) as [L | L]; simpl.
  - rewrite length_skipn.
    replace (base + Z.of_nat s + Z.of_nat (List.length l - s))
      with (base + Z.of_nat (List.length l)) by lia.
    symmetry. apply filter_all. intros [p x] I. apply starts_bounds in I. simpl. lia.
  - specialize (IH (s - List.length l)%nat (base + Z.of_nat (List.length l))).
    replace (base + Z.of_nat (List.length l) + Z.of_nat (s - List.length l))
      with (base + Z.of_nat s) in IH by lia.
    exact IH.
Qed.

Lemma from_byte_head (lines : list (list byte)) (s : nat) (base : Z) :
  match starts (base + Z.of_nat s) (from_byte s lines) with
  | [] => True
  | pl :: _ => fst pl = base + Z.of_nat s
  end.
Proof. destruct (from_byte s lines); simpl; auto. Qed.





(** ** What each worker keeps when the block size is within the shard size *)

Lemma filter_and {A : Type} (f g : A -> bool) (l : list A) :
  filter (fun x => f x && g x) l = filter g (filter f l).
Proof.
  induction l as [| x l IH]; simpl; [reflexivity |].
  destruct (f x); simpl; [destruct (g x); now rewrite IH | exact IH].
Qed.

Section Tiling.

Variable clean : list byte -> option (list string).
Variable ARGS : args.
Variable unprepared : list byte.

Hypothesis workers_pos : 1 <= ARGS_workers ARGS.
Hypothesis block_within_shard : ARGS_block_size ARGS <= block_size ARGS unprepared.
Hypothesis shard_pos : 0 < block_size ARGS unprepared.

Let sz := block_size ARGS unprepared.
Let L := splitlines unprepared.

Lemma read_block_opened (index : Z) :
  0 <= index ->
  read_block ARGS unprepared (shard_end ARGS unprepared index) (opened ARGS unprepared index)
  = map snd (filter (fun pl => fst pl <=? (index + 1) * sz)
               (starts (index * sz) (from_byte (Z.to_nat (index * sz)) L))).
Proof.
  intros I. unfold read_block, read_hint, shard_end, shard_start. simpl pos. simpl offset.
  unfold shard_start. fold sz.
  replace (index * sz + sz - index * sz) with sz by lia.
  rewrite Z.max_r by (unfold sz; lia).
  unfold readlines. destruct (Z.leb_spec sz 0) as [C | _]; [unfold sz in C; lia |].
  rewrite <- (concat_splitlines unprepared) at 1. fold L.
  rewrite splitlines_skipn by apply splitlines_structured.
  rewrite (take_hint_starts sz _ (index * sz) 0) by (unfold sz; lia).
  rewrite Z.add_0_r. replace (index * sz + sz) with ((index + 1) * sz) by lia.
  reflexivity.
Qed.

Lemma kept_lines_first :
  kept_lines ARGS unprepared 0 (shard_start ARGS unprepared 0)
    (shard_end ARGS unprepared 0) (opened ARGS unprepared 0)
  = lines_between (-1) sz L.
Proof.
  unfold kept_lines. simpl andb. cbv iota.
  rewrite read_block_opened by lia.
  replace ((0 + 1) * sz) with sz by lia. replace (0 * sz) with 0 by lia.
  assert (F : from_byte 0 L = L).
  { unfold L. rewrite <- (splitlines_skipn 0 (splitlines unprepared))
      by apply splitlines_structured.
    simpl skipn. now rewrite concat_splitlines. }
  change (Z.to_nat 0) with 0%nat. rewrite F. unfold lines_between. f_equal.
  apply filter_ext_in. intros [p x] I. apply starts_bounds in I.
  unfold within_range. simpl fst.
  destruct (Z.ltb_spec (-1) p); [reflexivity | lia].
Qed.

Lemma kept_lines_later (index : Z) :
  0 < index ->
  kept_lines ARGS unprepared index (shard_start ARGS unprepared index)
    (shard_end ARGS unprepared index) (opened ARGS unprepared index)
  = lines_between (index * sz) ((index + 1) * sz) L.
Proof.
  intros I. unfold kept_lines.
  destruct (Z.gtb_spec index 0) as [_ | C]; [| lia].
  simpl pos. rewrite Z.eqb_refl. simpl andb. cbv iota.
  rewrite read_block_opened by lia.
  set (s := Z.to_nat (index * sz)).
  assert (Es : index * sz = 0 + Z.of_nat s) by (unfold s, sz; nia).
  pose proof (from_byte_starts L s 0) as T.
  pose proof (from_byte_head L s 0) as H.
  rewrite <- Es in T, H.
  unfold lines_between.
  replace (filter (within_range (index * sz) ((index + 1) * sz)) (starts 0 L))
    with (filter (fun pl => fst pl <=? (index + 1) * sz)
            (filter (fun pl => index * sz <? fst pl) (starts 0 L)))
    by (symmetry; apply (filter_and (fun pl => index * sz <? fst pl))).
  rewrite <- T.
  destruct (starts (index * sz) (from_byte s L)) as [| pl rest]; [reflexivity |].
  simpl. rewrite H.
  destruct (Z.leb_spec (index * sz) ((index + 1) * sz)) as [_ | C]; [| unfold sz in C; nia].
  reflexivity.
Qed.

End Tiling.



(** ** From the lines kept to the prepared text *)









Section OneRead.

Variable clean : list byte -> option (list string).
Variable ARGS : args.
Variable unprepared : list byte.





End OneRead.








(** X15: when the block size is at most the shard size, the first read of
    worker [index] keeps exactly the lines of the file whose first byte
    lies after the start of its shard and at its end at the latest (worker
    0 keeps the line at byte 0 as well): a line that begins exactly on a
    boundary belongs to the worker before the boundary, and no line is
    kept by two workers. *)
Theorem worker_keeps_lines_of_its_shard (ARGS : args) (unprepared : list byte)
  (index : Z) :
  ARGS_block_size ARGS <= block_size ARGS unprepared ->
  0 < block_size ARGS unprepared ->
  0 <= index ->
  kept_lines ARGS unprepared index (shard_start ARGS unprepared index)
    (shard_end ARGS unprepared index) (opened ARGS unprepared index)
  = lines_between (if index =? 0 then -1 else shard_start ARGS unprepared index)
      (shard_end ARGS unprepared index) (splitlines unprepared).
Proof.
  intros B P I.
  destruct (Z.eqb_spec index 0) as [-> | N].
  - rewrite (kept_lines_first ARGS unprepared B P).
    unfold shard_end, shard_start. f_equal; lia.
  - rewrite (kept_lines_later ARGS unprepared B P index) by lia.
    unfold shard_end, shard_start. f_equal; lia.
Qed.

(* ================================================================== *)
(** * The further properties at concrete inputs *)

Lemma clean_plain_total (l : list byte) : clean_plain l <> None.
Proof. unfold clean_plain. discriminate. Defined.


Lemma worker_returns_after_one_read_witness :
  exists w,
    count_words clean_plain (ARGS_with 2 1) file_abcd 5 true [] 1 = Some (Returned w)
    /\ count_words clean_plain (ARGS_with 2 1) file_abcd 1 true [] 1 = Some (Returned w)
    /\ shard_end (ARGS_with 2 1) file_abcd 1 <= pos w <= getsize file_abcd.
Proof.
  apply (worker_returns_after_one_read clean_plain (ARGS_with 2 1) file_abcd 1 [] 4).
  - simpl. lia.
  - lia.
  - vm_compute. discriminate.
  - simpl. discriminate.
Defined.

Lemma sent_bytes_account_for_reads_witness :
  let w := {| pos := 6; old_pos := 0;
              counter := [(Word "a", 1); (Word "b", 1); (Word "c", 1)];
              offset := 6; partial_file := text_of ["a b"]%string; counters := [] |} in
  sent_bytes (counters w) = old_pos w - shard_start (ARGS_with 1 1) file_ab_c 0
  /\ shard_start (ARGS_with 1 1) file_ab_c 0 <= old_pos w <= pos w
  /\ Forall counted_bytes (counters w).
Proof.
  intros w.
  apply (sent_bytes_account_for_reads clean_plain (ARGS_with 1 1) file_ab_c 0 1 true
           [WriteFault 1] w).
  reflexivity.
Defined.

Lemma worker_sends_all_it_counted_witness :
  let w := {| pos := 6; old_pos := 6; counter := []; offset := 6;
              partial_file := text_of ["a b"; "c"]%string;
              counters := [Batch [(Word "a", 1); (Word "b", 1); (Word "c", 1)] 6] |} in
  counter w = []
  /\ sent_bytes (counters w) = pos w - shard_start (ARGS_with 1 1) file_ab_c 0
  /\ block_size (ARGS_with 1 1) file_ab_c <= sent_bytes (counters w).
Proof.
  intros w.
  apply (worker_sends_all_it_counted clean_plain (ARGS_with 1 1) file_ab_c 0 1 [] w).
  - apply clean_plain_total.
  - constructor.
  - simpl. lia.
  - reflexivity.
Defined.

Lemma aggregator_table_bounded_witness :
  let t := [(Tup (Word "a") 2, 1)] in
  wf t /\ positive t
  /\ NoDup (vocabulary ARGS_prune t)
  /\ Z.of_nat (List.length (vocabulary ARGS_prune t)) <= Z.max 0 1
  /\ (forall k, In k (vocabulary ARGS_prune t) -> 0 < getitem t k)
  /\ (1 <= 1 -> 0 <= 1 -> len_keys t <= 1 * 1).
Proof.
  intros t.
  apply (aggregator_table_bounded ARGS_prune
           [Batch [(Word "a", 2); (Word "b", 1)] 4; STOP_TOKEN] t).
  reflexivity.
Defined.

Lemma prune_yields_tuple_keys_witness :
  prune ARGS_prune batch_xz
  = map (fun kc => (Tup (fst kc) (snd kc), 1)) (most_common 1 batch_xz)
  /\ forall w, getitem (prune ARGS_prune batch_xz) (Word w) = 0.
Proof.
  apply (prune_yields_tuple_keys ARGS_prune batch_xz).
  apply word_counts_batch_xz.
Defined.

Lemma vocabulary_read_back_witness :
  (forall text, read_vocabulary text = split text)
  /\ map Word (read_vocabulary (vocabulary_text (ARGS_with 1 1) str_tuple_plain batch_xz))
     = vocabulary (ARGS_with 1 1) batch_xz.
Proof.
  apply (vocabulary_read_back (ARGS_with 1 1) str_tuple_plain batch_xz).
  intros k [<- | [<- | []]]; eexists; (split; [reflexivity |]);
    (split; [discriminate | reflexivity]).
Defined.

Lemma counts_are_words_of_partial_file_witness :
  let w := {| pos := 6; old_pos := 6; counter := []; offset := 6;
              partial_file := text_of ["a b"; "c"]%string;
              counters := [Batch [(Word "a", 1); (Word "b", 1); (Word "c", 1)] 6] |} in
  getitem (counter w) (Word "b") + total (sent_counters (counters w)) (Word "b")
  = Z.of_nat (count_occ string_dec (split (partial_file w)) "b"%string).
Proof.
  intros w.
  apply (counts_are_words_of_partial_file clean_plain (ARGS_with 1 1) file_ab_c 0 1 [] w).
  - constructor.
  - reflexivity.
Defined.

Lemma get_partial_path_injective_witness :
  get_partial_path "models/de" 3 = "models/de/prepared.txt.partial3"%string /\ 3 = 3.
Proof.
  split; [reflexivity |].
  apply (get_partial_path_injective "models/de" 3 3). reflexivity.
Defined.

Lemma main_prepare_empty_input_witness :
  main_prepare clean_plain str_tuple_plain (ARGS_with 4 1) [] all_open no_faults 0
  = Some {| vocabulary_txt := EmptyString; prepared_txt := Some EmptyString |}.
Proof.
  apply (main_prepare_empty_input clean_plain str_tuple_plain (ARGS_with 4 1)
           all_open no_faults 0).
  - simpl. lia.
  - reflexivity.
Defined.


Lemma worker_keeps_lines_of_its_shard_witness :
  kept_lines (ARGS_with 3 1) file_efg 1 (shard_start (ARGS_with 3 1) file_efg 1)
    (shard_end (ARGS_with 3 1) file_efg 1) (opened (ARGS_with 3 1) file_efg 1)
  = lines_between (shard_start (ARGS_with 3 1) file_efg 1)
      (shard_end (ARGS_with 3 1) file_efg 1) (splitlines file_efg).
Proof.
  apply (worker_keeps_lines_of_its_shard (ARGS_with 3 1) file_efg 1).
  - vm_compute. discriminate.
  - reflexivity.
  - lia.
Defined.
